(** * The material render-state model of src/scene/materials/material.js

    A shallow embedding of the [Material] class: its fields as a record, the
    objects it points to (mesh instances, shaders, stencil blocks, scenes) in
    typed stores indexed by location, and its methods as functions on the
    world that return [None] where the JavaScript would throw a [TypeError]
    on a missing object. *)

From Stdlib Require Import Ascii.
From stdpp Require Import gmap strings list fin_maps pretty.

Local Open Scope Z_scope.

(** ** Imported constants

    material.js imports its enumeration values from graphics/constants.js
    and scene/constants.js. Their numeric values are not part of this file,
    so they are parameters of the development. *)

Class GraphicsConstants := {
  BLENDMODE_ZERO : Z;
  BLENDMODE_ONE : Z;
  BLENDMODE_SRC_COLOR : Z;
  BLENDMODE_DST_COLOR : Z;
  BLENDMODE_ONE_MINUS_DST_COLOR : Z;
  BLENDMODE_SRC_ALPHA : Z;
  BLENDMODE_ONE_MINUS_SRC_ALPHA : Z;
  BLENDEQUATION_ADD : Z;
  BLENDEQUATION_MIN : Z;
  BLENDEQUATION_MAX : Z;
  CULLFACE_BACK : Z
}.

Class SceneConstants := {
  BLEND_ADDITIVE : Z;
  BLEND_NORMAL : Z;
  BLEND_NONE : Z;
  BLEND_PREMULTIPLIED : Z;
  BLEND_MULTIPLICATIVE : Z;
  BLEND_ADDITIVEALPHA : Z;
  BLEND_MULTIPLICATIVE2X : Z;
  BLEND_SCREEN : Z;
  BLEND_MIN : Z;
  BLEND_MAX : Z
}.

(** The blend factors are pairwise distinct, and so are the equations. *)
Class GraphicsDistinct `{GraphicsConstants} := {
  blendmodes_distinct :
    NoDup [BLENDMODE_ZERO; BLENDMODE_ONE; BLENDMODE_SRC_COLOR;
           BLENDMODE_DST_COLOR; BLENDMODE_ONE_MINUS_DST_COLOR;
           BLENDMODE_SRC_ALPHA; BLENDMODE_ONE_MINUS_SRC_ALPHA];
  blendequations_distinct :
    NoDup [BLENDEQUATION_ADD; BLENDEQUATION_MIN; BLENDEQUATION_MAX]
}.

(** One assignment of distinct values to the constants, used to run the
    model on concrete inputs. No property below depends on it. *)
Definition engine_graphics : GraphicsConstants := {|
  BLENDMODE_ZERO := 0;
  BLENDMODE_ONE := 1;
  BLENDMODE_SRC_COLOR := 2;
  BLENDMODE_DST_COLOR := 4;
  BLENDMODE_ONE_MINUS_DST_COLOR := 5;
  BLENDMODE_SRC_ALPHA := 6;
  BLENDMODE_ONE_MINUS_SRC_ALPHA := 8;
  BLENDEQUATION_ADD := 0;
  BLENDEQUATION_MIN := 3;
  BLENDEQUATION_MAX := 4;
  CULLFACE_BACK := 1
|}.

Definition engine_scene : SceneConstants := {|
  BLEND_ADDITIVE := 1;
  BLEND_NORMAL := 2;
  BLEND_NONE := 3;
  BLEND_PREMULTIPLIED := 4;
  BLEND_MULTIPLICATIVE := 5;
  BLEND_ADDITIVEALPHA := 6;
  BLEND_MULTIPLICATIVE2X := 7;
  BLEND_SCREEN := 8;
  BLEND_MIN := 9;
  BLEND_MAX := 10
|}.

(** ** Objects and stores *)

(** Object identity: [===] on two object references compares locations. *)
Abbreviation loc := positive.

(** Handle returned by [device.scope.resolve]. *)
Abbreviation ScopeId := positive.

(** A parameter value: [number | number[] | pc.Texture], or [undefined]
    when the argument is left out. Numbers are only stored, never computed
    with, so integers stand for them. *)
Inductive Data :=
  | DUndefined
  | DNumber (n : Z)
  | DArray (ns : list Z)
  | DTexture (t : loc).

Global Instance Data_eq_dec : EqDecision Data.
Proof. solve_decision. Defined.

(** An entry of the parameter table: [{ scopeId: ..., data: ... }]. *)
Record Param := { scopeId : option ScopeId; data : Data }.

Global Instance Param_eq_dec : EqDecision Param.
Proof. solve_decision. Defined.

(** The first argument of [setParameter]: a name, a uniform object
    [{ name, value }], or an array of such arguments. *)
#[warnings="-register-all"]
Inductive Uniform :=
  | UName (s : string)
  | UObject (name : string) (value : Data)
  | UArray (items : list Uniform).

(** Induction that reaches the items of an array. *)
Fixpoint Uniform_nested_ind (P : Uniform → Prop)
    (Hname : ∀ s, P (UName s))
    (Hobject : ∀ n v, P (UObject n v))
    (Harray : ∀ items, Forall P items → P (UArray items))
    (u : Uniform) : P u :=
  match u with
  | UName s => Hname s
  | UObject n v => Hobject n v
  | UArray items =>
      Harray items
        ((fix all (l : list Uniform) : Forall P l :=
            match l with
            | [] => List.Forall_nil P
            | x :: rest =>
                List.Forall_cons P x rest
                  (Uniform_nested_ind P Hname Hobject Harray x) (all rest)
            end) items)
  end.

(** Modelled from the spec: a stencil-parameter block, declared in
    stencil-parameters.js. It is opaque to the material, which only calls
    its [clone]. *)
Abbreviation StencilParameters := (gmap string Z).

(** Modelled from the spec: the attached shader object, of which the
    material uses the compile-failure flag [failed]. *)
Module Shader.
Record t := { failed : bool }.
End Shader.

(** Modelled from the spec: the owning scene exposes one mutable
    dirty-blend flag; material.js reaches it as [_scene.layers._dirtyBlend]. *)
Module LayerComposition.
Record t := { _dirtyBlend : bool }.
End LayerComposition.

Module Scene.
Record t := { layers : LayerComposition.t }.
End Scene.

(** Modelled from the spec: the mesh instance, declared in
    mesh-instance.js, with the members material.js reads or writes: the
    cached shader-variant slot array [_shader] and the one material
    back-reference. The reference is stored in [_material] and is read and
    assigned through the accessor [material], in the pattern of
    [_shader]/[shader] of the material class. What the setter does besides
    storing the reference is in mesh-instance.js and is not modelled. *)
Module MeshInstance.
Record t := {
  _shader : list (option loc);
  _material : option loc
}.

(** [get material()] *)
Definition material (meshInstance : t) : option loc := _material meshInstance.

(** [set material(value)] *)
Definition set_material (value : option loc) (meshInstance : t) : t :=
  {| _shader := _shader meshInstance; _material := value |}.
End MeshInstance.

(** The fields of [Material], in the order the constructor assigns them. *)
Record Material := {
  name : string;
  id : Z;
  _shader : option loc;
  variants : gmap string loc;
  parameters : gmap string Param;
  alphaTest : Z;
  alphaToCoverage : bool;
  blend : bool;
  blendSrc : Z;
  blendDst : Z;
  blendEquation : Z;
  separateAlphaBlend : bool;
  blendSrcAlpha : Z;
  blendDstAlpha : Z;
  blendAlphaEquation : Z;
  cull : Z;
  depthTest : bool;
  depthWrite : bool;
  stencilFront : option loc;
  stencilBack : option loc;
  depthBias : Z;
  slopeDepthBias : Z;
  redWrite : bool;
  greenWrite : bool;
  blueWrite : bool;
  alphaWrite : bool;
  meshInstances : list loc;
  _shaderVersion : Z;
  _scene : option loc;
  _dirtyBlend : bool;
  dirty : bool
}.

(** Calls made to collaborators whose code is outside material.js. *)
Inductive Event :=
  | EvUpdateKey (meshInstance : loc)
  | EvResolve (paramName : string)
  | EvSetValue (h : ScopeId) (v : Data).

Record World := {
  materialHeap : gmap loc Material;
  meshInstanceHeap : gmap loc MeshInstance.t;
  shaderHeap : gmap loc Shader.t;
  stencilHeap : gmap loc StencilParameters;
  sceneHeap : gmap loc Scene.t;
  defaultMaterial : option loc;
  idCounter : Z;
  calls : list Event
}.

(** ** Field updates *)

Definition with_blendState (b : bool) (src dst eq : Z) (m : Material) : Material :=
  {| name := name m; id := id m; _shader := _shader m; variants := variants m;
     parameters := parameters m; alphaTest := alphaTest m;
     alphaToCoverage := alphaToCoverage m;
     blend := b; blendSrc := src; blendDst := dst; blendEquation := eq;
     separateAlphaBlend := separateAlphaBlend m; blendSrcAlpha := blendSrcAlpha m;
     blendDstAlpha := blendDstAlpha m; blendAlphaEquation := blendAlphaEquation m;
     cull := cull m; depthTest := depthTest m; depthWrite := depthWrite m;
     stencilFront := stencilFront m; stencilBack := stencilBack m;
     depthBias := depthBias m; slopeDepthBias := slopeDepthBias m;
     redWrite := redWrite m; greenWrite := greenWrite m; blueWrite := blueWrite m;
     alphaWrite := alphaWrite m; meshInstances := meshInstances m;
     _shaderVersion := _shaderVersion m; _scene := _scene m;
     _dirtyBlend := _dirtyBlend m; dirty := dirty m |}.

Definition with__dirtyBlend (b : bool) (m : Material) : Material :=
  {| name := name m; id := id m; _shader := _shader m; variants := variants m;
     parameters := parameters m; alphaTest := alphaTest m;
     alphaToCoverage := alphaToCoverage m;
     blend := blend m; blendSrc := blendSrc m; blendDst := blendDst m;
     blendEquation := blendEquation m;
     separateAlphaBlend := separateAlphaBlend m; blendSrcAlpha := blendSrcAlpha m;
     blendDstAlpha := blendDstAlpha m; blendAlphaEquation := blendAlphaEquation m;
     cull := cull m; depthTest := depthTest m; depthWrite := depthWrite m;
     stencilFront := stencilFront m; stencilBack := stencilBack m;
     depthBias := depthBias m; slopeDepthBias := slopeDepthBias m;
     redWrite := redWrite m; greenWrite := greenWrite m; blueWrite := blueWrite m;
     alphaWrite := alphaWrite m; meshInstances := meshInstances m;
     _shaderVersion := _shaderVersion m; _scene := _scene m;
     _dirtyBlend := b; dirty := dirty m |}.

Definition with_dirty (b : bool) (m : Material) : Material :=
  {| name := name m; id := id m; _shader := _shader m; variants := variants m;
     parameters := parameters m; alphaTest := alphaTest m;
     alphaToCoverage := alphaToCoverage m;
     blend := blend m; blendSrc := blendSrc m; blendDst := blendDst m;
     blendEquation := blendEquation m;
     separateAlphaBlend := separateAlphaBlend m; blendSrcAlpha := blendSrcAlpha m;
     blendDstAlpha := blendDstAlpha m; blendAlphaEquation := blendAlphaEquation m;
     cull := cull m; depthTest := depthTest m; depthWrite := depthWrite m;
     stencilFront := stencilFront m; stencilBack := stencilBack m;
     depthBias := depthBias m; slopeDepthBias := slopeDepthBias m;
     redWrite := redWrite m; greenWrite := greenWrite m; blueWrite := blueWrite m;
     alphaWrite := alphaWrite m; meshInstances := meshInstances m;
     _shaderVersion := _shaderVersion m; _scene := _scene m;
     _dirtyBlend := _dirtyBlend m; dirty := b |}.

Definition with_parameters (ps : gmap string Param) (m : Material) : Material :=
  {| name := name m; id := id m; _shader := _shader m; variants := variants m;
     parameters := ps; alphaTest := alphaTest m;
     alphaToCoverage := alphaToCoverage m;
     blend := blend m; blendSrc := blendSrc m; blendDst := blendDst m;
     blendEquation := blendEquation m;
     separateAlphaBlend := separateAlphaBlend m; blendSrcAlpha := blendSrcAlpha m;
     blendDstAlpha := blendDstAlpha m; blendAlphaEquation := blendAlphaEquation m;
     cull := cull m; depthTest := depthTest m; depthWrite := depthWrite m;
     stencilFront := stencilFront m; stencilBack := stencilBack m;
     depthBias := depthBias m; slopeDepthBias := slopeDepthBias m;
     redWrite := redWrite m; greenWrite := greenWrite m; blueWrite := blueWrite m;
     alphaWrite := alphaWrite m; meshInstances := meshInstances m;
     _shaderVersion := _shaderVersion m; _scene := _scene m;
     _dirtyBlend := _dirtyBlend m; dirty := dirty m |}.

Definition with_variants (vs : gmap string loc) (m : Material) : Material :=
  {| name := name m; id := id m; _shader := _shader m; variants := vs;
     parameters := parameters m; alphaTest := alphaTest m;
     alphaToCoverage := alphaToCoverage m;
     blend := blend m; blendSrc := blendSrc m; blendDst := blendDst m;
     blendEquation := blendEquation m;
     separateAlphaBlend := separateAlphaBlend m; blendSrcAlpha := blendSrcAlpha m;
     blendDstAlpha := blendDstAlpha m; blendAlphaEquation := blendAlphaEquation m;
     cull := cull m; depthTest := depthTest m; depthWrite := depthWrite m;
     stencilFront := stencilFront m; stencilBack := stencilBack m;
     depthBias := depthBias m; slopeDepthBias := slopeDepthBias m;
     redWrite := redWrite m; greenWrite := greenWrite m; blueWrite := blueWrite m;
     alphaWrite := alphaWrite m; meshInstances := meshInstances m;
     _shaderVersion := _shaderVersion m; _scene := _scene m;
     _dirtyBlend := _dirtyBlend m; dirty := dirty m |}.

(** [set shader(shader) { this._shader = shader; }] *)
Definition set_shader (shader : option loc) (m : Material) : Material :=
  {| name := name m; id := id m; _shader := shader; variants := variants m;
     parameters := parameters m; alphaTest := alphaTest m;
     alphaToCoverage := alphaToCoverage m;
     blend := blend m; blendSrc := blendSrc m; blendDst := blendDst m;
     blendEquation := blendEquation m;
     separateAlphaBlend := separateAlphaBlend m; blendSrcAlpha := blendSrcAlpha m;
     blendDstAlpha := blendDstAlpha m; blendAlphaEquation := blendAlphaEquation m;
     cull := cull m; depthTest := depthTest m; depthWrite := depthWrite m;
     stencilFront := stencilFront m; stencilBack := stencilBack m;
     depthBias := depthBias m; slopeDepthBias := slopeDepthBias m;
     redWrite := redWrite m; greenWrite := greenWrite m; blueWrite := blueWrite m;
     alphaWrite := alphaWrite m; meshInstances := meshInstances m;
     _shaderVersion := _shaderVersion m; _scene := _scene m;
     _dirtyBlend := _dirtyBlend m; dirty := dirty m |}.

(** [get shader() { return this._shader; }] *)
Definition get_shader (m : Material) : option loc := _shader m.

Definition with_materialHeap (h : gmap loc Material) (w : World) : World :=
  {| materialHeap := h; meshInstanceHeap := meshInstanceHeap w;
     shaderHeap := shaderHeap w; stencilHeap := stencilHeap w;
     sceneHeap := sceneHeap w; defaultMaterial := defaultMaterial w;
     idCounter := idCounter w; calls := calls w |}.

Definition with_meshInstanceHeap (h : gmap loc MeshInstance.t) (w : World) : World :=
  {| materialHeap := materialHeap w; meshInstanceHeap := h;
     shaderHeap := shaderHeap w; stencilHeap := stencilHeap w;
     sceneHeap := sceneHeap w; defaultMaterial := defaultMaterial w;
     idCounter := idCounter w; calls := calls w |}.

Definition with_shaderHeap (h : gmap loc Shader.t) (w : World) : World :=
  {| materialHeap := materialHeap w; meshInstanceHeap := meshInstanceHeap w;
     shaderHeap := h; stencilHeap := stencilHeap w;
     sceneHeap := sceneHeap w; defaultMaterial := defaultMaterial w;
     idCounter := idCounter w; calls := calls w |}.

Definition with_stencilHeap (h : gmap loc StencilParameters) (w : World) : World :=
  {| materialHeap := materialHeap w; meshInstanceHeap := meshInstanceHeap w;
     shaderHeap := shaderHeap w; stencilHeap := h;
     sceneHeap := sceneHeap w; defaultMaterial := defaultMaterial w;
     idCounter := idCounter w; calls := calls w |}.

Definition with_sceneHeap (h : gmap loc Scene.t) (w : World) : World :=
  {| materialHeap := materialHeap w; meshInstanceHeap := meshInstanceHeap w;
     shaderHeap := shaderHeap w; stencilHeap := stencilHeap w;
     sceneHeap := h; defaultMaterial := defaultMaterial w;
     idCounter := idCounter w; calls := calls w |}.

Definition with_idCounter (n : Z) (w : World) : World :=
  {| materialHeap := materialHeap w; meshInstanceHeap := meshInstanceHeap w;
     shaderHeap := shaderHeap w; stencilHeap := stencilHeap w;
     sceneHeap := sceneHeap w; defaultMaterial := defaultMaterial w;
     idCounter := n; calls := calls w |}.

(** Record a call to a collaborator. *)
Definition emit (e : Event) (w : World) : World :=
  {| materialHeap := materialHeap w; meshInstanceHeap := meshInstanceHeap w;
     shaderHeap := shaderHeap w; stencilHeap := stencilHeap w;
     sceneHeap := sceneHeap w; defaultMaterial := defaultMaterial w;
     idCounter := idCounter w; calls := calls w ++ [e] |}.

(** Write a material back to its location. *)
Definition store (this : loc) (m : Material) (w : World) : World :=
  with_materialHeap (<[this := m]> (materialHeap w)) w.

Definition store_meshInstance (l : loc) (mi : MeshInstance.t) (w : World) : World :=
  with_meshInstanceHeap (<[l := mi]> (meshInstanceHeap w)) w.

(** A [for] loop over an array whose body may throw. *)
Fixpoint forEach {A} (body : A → World → option World) (xs : list A)
    (w : World) : option World :=
  match xs with
  | [] => Some w
  | x :: rest => w' ← body x w; forEach body rest w'
  end.

(** ** The class *)

Section Material.
Context {GC : GraphicsConstants} {SC : SceneConstants}.

(** [constructor()], with [next] the value of the module counter [id]. *)
Definition constructor (next : Z) : Material :=
  {| name := "Untitled"; id := next;
     _shader := None; variants := ∅; parameters := ∅;
     alphaTest := 0; alphaToCoverage := false;
     blend := false; blendSrc := BLENDMODE_ONE; blendDst := BLENDMODE_ZERO;
     blendEquation := BLENDEQUATION_ADD;
     separateAlphaBlend := false; blendSrcAlpha := BLENDMODE_ONE;
     blendDstAlpha := BLENDMODE_ZERO; blendAlphaEquation := BLENDEQUATION_ADD;
     cull := CULLFACE_BACK;
     depthTest := true; depthWrite := true;
     stencilFront := None; stencilBack := None;
     depthBias := 0; slopeDepthBias := 0;
     redWrite := true; greenWrite := true; blueWrite := true; alphaWrite := true;
     meshInstances := [];
     _shaderVersion := 0; _scene := None; _dirtyBlend := false;
     dirty := true |}.

(** [new Material()]: a fresh object, and [id++]. The counter is a double:
    the increment is the one written here while the counter is a natural
    number below 2^53, which is what the properties of ids assume. *)
Definition new_Material (w : World) : loc * World :=
  let this := fresh (dom (materialHeap w)) in
  (this, with_idCounter (idCounter w + 1) (store this (constructor (idCounter w)) w)).

(** [get blendType()] *)
Definition get_blendType (m : Material) : Z :=
  if negb (blend m) && (blendSrc m =? BLENDMODE_ONE) &&
     (blendDst m =? BLENDMODE_ZERO) && (blendEquation m =? BLENDEQUATION_ADD)
  then BLEND_NONE
  else if blend m && (blendSrc m =? BLENDMODE_SRC_ALPHA) &&
     (blendDst m =? BLENDMODE_ONE_MINUS_SRC_ALPHA) &&
     (blendEquation m =? BLENDEQUATION_ADD)
  then BLEND_NORMAL
  else if blend m && (blendSrc m =? BLENDMODE_ONE) &&
     (blendDst m =? BLENDMODE_ONE) && (blendEquation m =? BLENDEQUATION_ADD)
  then BLEND_ADDITIVE
  else if blend m && (blendSrc m =? BLENDMODE_SRC_ALPHA) &&
     (blendDst m =? BLENDMODE_ONE) && (blendEquation m =? BLENDEQUATION_ADD)
  then BLEND_ADDITIVEALPHA
  else if blend m && (blendSrc m =? BLENDMODE_DST_COLOR) &&
     (blendDst m =? BLENDMODE_SRC_COLOR) && (blendEquation m =? BLENDEQUATION_ADD)
  then BLEND_MULTIPLICATIVE2X
  else if blend m && (blendSrc m =? BLENDMODE_ONE_MINUS_DST_COLOR) &&
     (blendDst m =? BLENDMODE_ONE) && (blendEquation m =? BLENDEQUATION_ADD)
  then BLEND_SCREEN
  else if blend m && (blendSrc m =? BLENDMODE_ONE) &&
     (blendDst m =? BLENDMODE_ONE) && (blendEquation m =? BLENDEQUATION_MIN)
  then BLEND_MIN
  else if blend m && (blendSrc m =? BLENDMODE_ONE) &&
     (blendDst m =? BLENDMODE_ONE) && (blendEquation m =? BLENDEQUATION_MAX)
  then BLEND_MAX
  else if blend m && (blendSrc m =? BLENDMODE_DST_COLOR) &&
     (blendDst m =? BLENDMODE_ZERO) && (blendEquation m =? BLENDEQUATION_ADD)
  then BLEND_MULTIPLICATIVE
  else if blend m && (blendSrc m =? BLENDMODE_ONE) &&
     (blendDst m =? BLENDMODE_ONE_MINUS_SRC_ALPHA) &&
     (blendEquation m =? BLENDEQUATION_ADD)
  then BLEND_PREMULTIPLIED
  else BLEND_NORMAL.

(** The [switch (type)] of [set blendType]: the first [case] equal to
    [type] assigns its four fields; no [default]. *)
Definition blendType_switch (type : Z) (m : Material) : Material :=
  if type =? BLEND_NONE then
    with_blendState false BLENDMODE_ONE BLENDMODE_ZERO BLENDEQUATION_ADD m
  else if type =? BLEND_NORMAL then
    with_blendState true BLENDMODE_SRC_ALPHA BLENDMODE_ONE_MINUS_SRC_ALPHA
      BLENDEQUATION_ADD m
  else if type =? BLEND_PREMULTIPLIED then
    with_blendState true BLENDMODE_ONE BLENDMODE_ONE_MINUS_SRC_ALPHA
      BLENDEQUATION_ADD m
  else if type =? BLEND_ADDITIVE then
    with_blendState true BLENDMODE_ONE BLENDMODE_ONE BLENDEQUATION_ADD m
  else if type =? BLEND_ADDITIVEALPHA then
    with_blendState true BLENDMODE_SRC_ALPHA BLENDMODE_ONE BLENDEQUATION_ADD m
  else if type =? BLEND_MULTIPLICATIVE2X then
    with_blendState true BLENDMODE_DST_COLOR BLENDMODE_SRC_COLOR BLENDEQUATION_ADD m
  else if type =? BLEND_SCREEN then
    with_blendState true BLENDMODE_ONE_MINUS_DST_COLOR BLENDMODE_ONE
      BLENDEQUATION_ADD m
  else if type =? BLEND_MULTIPLICATIVE then
    with_blendState true BLENDMODE_DST_COLOR BLENDMODE_ZERO BLENDEQUATION_ADD m
  else if type =? BLEND_MIN then
    with_blendState true BLENDMODE_ONE BLENDMODE_ONE BLENDEQUATION_MIN m
  else if type =? BLEND_MAX then
    with_blendState true BLENDMODE_ONE BLENDMODE_ONE BLENDEQUATION_MAX m
  else m.

(** Modelled from the spec: [MeshInstance#updateKey] is the consumer's
    sort-key recomputation; its body is in mesh-instance.js. The call needs
    a live mesh instance and is recorded in [calls]. *)
Definition updateKey (meshInstance : loc) (w : World) : option World :=
  _ ← meshInstanceHeap w !! meshInstance;
  Some (emit (EvUpdateKey meshInstance) w).

(** [_updateMeshInstanceKeys()] *)
Definition _updateMeshInstanceKeys (this : loc) (w : World) : option World :=
  m ← materialHeap w !! this;
  forEach updateKey (meshInstances m) w.

(** [this._scene.layers._dirtyBlend = true] *)
Definition mark_scene_dirtyBlend (scene : loc) (w : World) : option World :=
  _ ← sceneHeap w !! scene;
  Some (with_sceneHeap
          (<[scene := {| Scene.layers := {| LayerComposition._dirtyBlend := true |} |}]>
             (sceneHeap w)) w).

(** [set blendType(type)] *)
Definition set_blendType (this : loc) (type : Z) (w : World) : option World :=
  m ← materialHeap w !! this;
  let prevBlend := blend m in
  let m1 := blendType_switch type m in
  w1 ← (if bool_decide (prevBlend ≠ blend m1) then
          match _scene m1 with
          | Some scene => mark_scene_dirtyBlend scene (store this m1 w)
          | None => Some (store this (with__dirtyBlend true m1) w)
          end
        else Some (store this m1 w));
  _updateMeshInstanceKeys this w1.

(** Modelled from the spec: [StencilParameters#clone] is the stencil
    block's own copy operation; its body is in stencil-parameters.js. It
    allocates a new block with the contents of the receiver. *)
Definition stencil_clone (s : loc) (w : World) : option (loc * World) :=
  sp ← stencilHeap w !! s;
  let s' := fresh (dom (stencilHeap w)) in
  Some (s', with_stencilHeap (<[s' := sp]> (stencilHeap w)) w).

(** [_cloneInternal(clone)]. The clone is passed and returned as a record:
    in [clone()] it is a new object, distinct from [this]. *)
Definition _cloneInternal (this clone : Material) (w : World)
    : option (Material * World) :=
  '(front, w1) ←
    match stencilFront this with
    | Some s => '(s', w') ← stencil_clone s w; Some (Some s', w')
    | None => Some (stencilFront clone, w)
    end;
  '(back, w2) ←
    match stencilBack this with
    | Some s =>
        if bool_decide (stencilFront this = stencilBack this)
        then Some (front, w1)
        else '(s', w') ← stencil_clone s w1; Some (Some s', w')
    | None => Some (stencilBack clone, w1)
    end;
  Some ({| name := name this; id := id clone;
           _shader := get_shader this;
           variants := variants clone; parameters := parameters clone;
           alphaTest := alphaTest this; alphaToCoverage := alphaToCoverage this;
           blend := blend this; blendSrc := blendSrc this;
           blendDst := blendDst this; blendEquation := blendEquation this;
           separateAlphaBlend := separateAlphaBlend this;
           blendSrcAlpha := blendSrcAlpha this;
           blendDstAlpha := blendDstAlpha this;
           blendAlphaEquation := blendAlphaEquation this;
           cull := cull this;
           depthTest := depthTest this; depthWrite := depthWrite this;
           stencilFront := front; stencilBack := back;
           depthBias := depthBias this; slopeDepthBias := slopeDepthBias this;
           redWrite := redWrite this; greenWrite := greenWrite this;
           blueWrite := blueWrite this; alphaWrite := alphaWrite this;
           meshInstances := meshInstances clone;
           _shaderVersion := _shaderVersion clone; _scene := _scene clone;
           _dirtyBlend := _dirtyBlend clone; dirty := dirty clone |}, w2).

(** [clone()] *)
Definition clone (this : loc) (w : World) : option (loc * World) :=
  src ← materialHeap w !! this;
  let '(c, w1) := new_Material w in
  fresh_clone ← materialHeap w1 !! c;
  '(copied, w2) ← _cloneInternal src fresh_clone w1;
  Some (c, store c copied w2).

(** [update()] *)
Definition update (this : loc) (w : World) : option World :=
  m ← materialHeap w !! this;
  let w1 := store this (with_dirty true m) w in
  match _shader m with
  | Some s =>
      _ ← shaderHeap w1 !! s;
      Some (with_shaderHeap (<[s := {| Shader.failed := false |}]> (shaderHeap w1)) w1)
  | None => Some w1
  end.

(** [clearParameters()] *)
Definition clearParameters (m : Material) : Material := with_parameters ∅ m.

(** [getParameters()] *)
Definition getParameters (m : Material) : gmap string Param := parameters m.

(** [for (j = 0; j < meshInstance._shader.length; j++) meshInstance._shader[j] = null] *)
Definition null_shader_slots (slots : list (option loc)) : list (option loc) :=
  foldl (λ acc j, <[j := None]> acc) slots (seq 0 (length slots)).

(** [clearVariants()] *)
Definition clearVariants (this : loc) (w : World) : option World :=
  m ← materialHeap w !! this;
  forEach
    (λ l w,
       meshInstance ← meshInstanceHeap w !! l;
       Some (store_meshInstance l
               {| MeshInstance._shader := null_shader_slots (MeshInstance._shader meshInstance);
                  MeshInstance._material := MeshInstance._material meshInstance |} w))
    (meshInstances m)
    (store this (with_variants ∅ m) w).

(** The parameter table is a plain object, so [this.parameters[name]]
    finds, besides the entries of the table, the members every object
    inherits from [Object.prototype]. These are their names. The lookups
    below are the lookups of the code for every other name, and for one of
    these names when the table has an entry of its own under it; the
    properties of a lookup are stated for names that are not inherited. *)
Definition Object_prototype : list string :=
  [ "constructor"; "hasOwnProperty"; "isPrototypeOf"; "propertyIsEnumerable";
    "toLocaleString"; "toString"; "valueOf"; "__proto__";
    "__defineGetter__"; "__defineSetter__"; "__lookupGetter__"; "__lookupSetter__" ].

Definition inherited (name : string) : bool :=
  bool_decide (name ∈ Object_prototype).

(** [getParameter(name)]; [None] is [undefined]. *)
Definition getParameter (name : string) (m : Material) : option Param :=
  parameters m !! name.

(** The tail of [setParameter]: update [data] in place when the entry
    exists, else add [{ scopeId: null, data }]. *)
Definition setParameter_entry (name : string) (d : Data) (m : Material) : Material :=
  match parameters m !! name with
  | Some param =>
      with_parameters (<[name := {| scopeId := scopeId param; data := d |}]> (parameters m)) m
  | None =>
      with_parameters (<[name := {| scopeId := None; data := d |}]> (parameters m)) m
  end.

(** The property key an argument is converted to by [this.parameters[name]]. *)
Fixpoint toPropertyKey (name : Uniform) : string :=
  match name with
  | UName s => s
  | UObject _ _ => "[object Object]"
  | UArray items => String.concat "," (map toPropertyKey items)
  end.

(** [setParameter(name, data)]. An empty array has a falsy [length], so it
    falls through to [name = uniformObject.name; data = uniformObject.value],
    both [undefined]. *)
Fixpoint setParameter (name : Uniform) (d : Data) (m : Material) : Material :=
  match d, name with
  | DUndefined, UArray [] => setParameter_entry "undefined" DUndefined m
  | DUndefined, UArray items =>
      (fix loop (rest : list Uniform) (m : Material) : Material :=
         match rest with
         | [] => m
         | uniformObject :: rest' => loop rest' (setParameter uniformObject DUndefined m)
         end) items m
  | DUndefined, UObject n v => setParameter_entry n v m
  | _, _ => setParameter_entry (toPropertyKey name) d m
  end.

(** [deleteParameter(name)] *)
Definition deleteParameter (name : string) (m : Material) : Material :=
  match parameters m !! name with
  | Some _ => with_parameters (delete name (parameters m)) m
  | None => m
  end.

(** Modelled from the spec: the uniform-resolution capability of the
    graphics device, [device.scope.resolve(name)]. *)
Record GraphicsDevice := { scope_resolve : string → ScopeId }.

(** [setParameters(device, names)]. [names] is the list of enumerable keys
    of the optional argument, in the order [for..in] gives them; when it is
    left out the keys of the parameter table are used, and the order of the
    list stands for the order in which [for..in] gives those: the table
    does not record it, and it is left out of what is stated about this
    case. [resolve] and [setValue] are recorded in [calls]. *)
Definition setParameters (this : loc) (device : GraphicsDevice)
    (names : option (list string)) (w : World) : option World :=
  m ← materialHeap w !! this;
  forEach
    (λ paramName w,
       m ← materialHeap w !! this;
       match parameters m !! paramName with
       | Some parameter =>
           match scopeId parameter with
           | Some h => Some (emit (EvSetValue h (data parameter)) w)
           | None =>
               let h := scope_resolve device paramName in
               let bound := {| scopeId := Some h; data := data parameter |} in
               Some (emit (EvSetValue h (data parameter))
                       (emit (EvResolve paramName)
                          (store this
                             (with_parameters (<[paramName := bound]> (parameters m)) m)
                             w)))
           end
       | None => Some w
       end)
    (default (map_to_list (parameters m)).*1 names)
    w.

(** [destroy()]. For each consumer: the slots are nulled, [_material] is
    set to null, and then, unless [this] is the fallback, the fallback is
    assigned through the [material] accessor. *)
Definition destroy (this : loc) (w : World) : option World :=
  m ← materialHeap w !! this;
  forEach
    (λ l w,
       meshInstance ← meshInstanceHeap w !! l;
       let slots := null_shader_slots (MeshInstance._shader meshInstance) in
       let meshInstance :=
         {| MeshInstance._shader := slots; MeshInstance._material := None |} in
       let defaultMaterial := defaultMaterial w in
       Some (store_meshInstance l
               (if bool_decide (Some this ≠ defaultMaterial)
                then MeshInstance.set_material defaultMaterial meshInstance
                else meshInstance) w))
    (meshInstances m)
    (store this (set_shader None (with_variants ∅ m)) w).

End Material.

(** ** The preset table of the blend codec *)

Section PresetTable.
Context {GC : GraphicsConstants} {SC : SceneConstants}.

(** The four fields the codec reads and writes:
    (blend, blendSrc, blendDst, blendEquation). *)
Definition blendState (m : Material) : bool * Z * Z * Z :=
  (blend m, blendSrc m, blendDst m, blendEquation m).

(** The ten rows of the table, as the specification lists them. *)
Definition preset_table : list (Z * (bool * Z * Z * Z)) :=
  [ (BLEND_NONE, (false, BLENDMODE_ONE, BLENDMODE_ZERO, BLENDEQUATION_ADD));
    (BLEND_NORMAL,
       (true, BLENDMODE_SRC_ALPHA, BLENDMODE_ONE_MINUS_SRC_ALPHA, BLENDEQUATION_ADD));
    (BLEND_PREMULTIPLIED,
       (true, BLENDMODE_ONE, BLENDMODE_ONE_MINUS_SRC_ALPHA, BLENDEQUATION_ADD));
    (BLEND_ADDITIVE, (true, BLENDMODE_ONE, BLENDMODE_ONE, BLENDEQUATION_ADD));
    (BLEND_ADDITIVEALPHA, (true, BLENDMODE_SRC_ALPHA, BLENDMODE_ONE, BLENDEQUATION_ADD));
    (BLEND_MULTIPLICATIVE2X,
       (true, BLENDMODE_DST_COLOR, BLENDMODE_SRC_COLOR, BLENDEQUATION_ADD));
    (BLEND_SCREEN,
       (true, BLENDMODE_ONE_MINUS_DST_COLOR, BLENDMODE_ONE, BLENDEQUATION_ADD));
    (BLEND_MULTIPLICATIVE, (true, BLENDMODE_DST_COLOR, BLENDMODE_ZERO, BLENDEQUATION_ADD));
    (BLEND_MIN, (true, BLENDMODE_ONE, BLENDMODE_ONE, BLENDEQUATION_MIN));
    (BLEND_MAX, (true, BLENDMODE_ONE, BLENDMODE_ONE, BLENDEQUATION_MAX)) ].

(** The ten defined preset values. *)
Definition presets : list Z := preset_table.*1.

(** The row a preset value selects: the first one with that value. *)
Fixpoint table_lookup (type : Z) (rows : list (Z * (bool * Z * Z * Z)))
    : option (bool * Z * Z * Z) :=
  match rows with
  | [] => None
  | (c, t) :: rest => if type =? c then Some t else table_lookup type rest
  end.

Definition presetTuple (type : Z) : option (bool * Z * Z * Z) :=
  table_lookup type preset_table.

Definition with_blendTuple (t : bool * Z * Z * Z) (m : Material) : Material :=
  let '(b, src, dst, eq) := t in with_blendState b src dst eq m.

End PresetTable.

(** ** Well-formed references *)

(** Every consumer in the material's list is a live mesh instance. *)
Definition consumers_live (w : World) (m : Material) : Prop :=
  Forall (λ l, is_Some (meshInstanceHeap w !! l)) (meshInstances m).

(** The scene back-reference, when set, points to a live scene. *)
Definition scene_live (w : World) (m : Material) : Prop :=
  ∀ scene, _scene m = Some scene → is_Some (sceneHeap w !! scene).

(** The stencil blocks, when set, are live. *)
Definition stencils_live (w : World) (m : Material) : Prop :=
  (∀ s, stencilFront m = Some s → is_Some (stencilHeap w !! s)) ∧
  (∀ s, stencilBack m = Some s → is_Some (stencilHeap w !! s)).

(** Record a sequence of calls. *)
Definition emit_all (es : list Event) (w : World) : World :=
  foldl (λ w e, emit e w) w es.

(** The scalar render-state fields, in constructor order. *)
Definition renderState (m : Material) :=
  (alphaTest m, alphaToCoverage m,
   (blend m, blendSrc m, blendDst m, blendEquation m),
   (separateAlphaBlend m, blendSrcAlpha m, blendDstAlpha m, blendAlphaEquation m),
   cull m, (depthTest m, depthWrite m), (depthBias m, slopeDepthBias m),
   (redWrite m, greenWrite m, blueWrite m, alphaWrite m)).

(** The contents of an optional stencil block. *)
Definition stencil_contents (w : World) (s : option loc) : option StencilParameters :=
  s ≫= (λ l, stencilHeap w !! l).

(** What [destroy()] does to one consumer. *)
Definition detached (this : loc) (fallback : option loc) (mi : MeshInstance.t)
    : MeshInstance.t :=
  let nulled :=
    {| MeshInstance._shader := null_shader_slots (MeshInstance._shader mi);
       MeshInstance._material := None |} in
  if bool_decide (Some this ≠ fallback)
  then MeshInstance.set_material fallback nulled
  else nulled.

(** ** Calling the methods *)

Section Calls.
Context {GC : GraphicsConstants} {SC : SceneConstants}.

(** A method that only touches the fields of [this]. *)
Definition method (f : Material → Material) (this : loc) (w : World) : option World :=
  m ← materialHeap w !! this;
  Some (store this (f m) w).

(** The operations of the class. *)
Inductive Op :=
  | OpNew
  | OpSetShader (this : loc) (shader : option loc)
  | OpSetBlendType (this : loc) (type : Z)
  | OpClone (this : loc)
  | OpUpdate (this : loc)
  | OpClearParameters (this : loc)
  | OpClearVariants (this : loc)
  | OpSetParameter (this : loc) (name : Uniform) (d : Data)
  | OpDeleteParameter (this : loc) (name : string)
  | OpSetParameters (this : loc) (device : GraphicsDevice) (names : option (list string))
  | OpDestroy (this : loc).

Definition call (op : Op) (w : World) : option World :=
  match op with
  | OpNew => Some (new_Material w).2
  | OpSetShader this shader => method (set_shader shader) this w
  | OpSetBlendType this type => set_blendType this type w
  | OpClone this => snd <$> clone this w
  | OpUpdate this => update this w
  | OpClearParameters this => method clearParameters this w
  | OpClearVariants this => clearVariants this w
  | OpSetParameter this name d => method (setParameter name d) this w
  | OpDeleteParameter this name => method (deleteParameter name) this w
  | OpSetParameters this device names => setParameters this device names w
  | OpDestroy this => destroy this w
  end.

(** Across a call: a material that was dirty stays dirty, and a material
    the call created is dirty. *)
Definition dirty_kept (w w' : World) : Prop :=
  (∀ l m, materialHeap w !! l = Some m → dirty m = true →
     ∃ m', materialHeap w' !! l = Some m' ∧ dirty m' = true) ∧
  (∀ l m', materialHeap w !! l = None → materialHeap w' !! l = Some m' →
     dirty m' = true).

End Calls.

(** The second half of C3 as the specification words it: when the
    destroyed material is the fallback itself, [destroy()] leaves the
    material reference of each of its consumers as it was. *)
Definition destroy_of_fallback_keeps_refs (w : World) (this : loc) : Prop :=
  ∀ m w', materialHeap w !! this = Some m →
          defaultMaterial w = Some this →
          destroy this w = Some w' →
          ∀ l, l ∈ meshInstances m →
               MeshInstance.material <$> meshInstanceHeap w' !! l
               = MeshInstance.material <$> meshInstanceHeap w !! l.

(** ** Sample worlds

    Fields that collaborators assign directly: the consumer list (by the
    mesh instances), the scene back-reference (by the scene) and the
    stencil blocks (by the caller). *)
Definition linked (consumers : list loc) (scene front back : option loc)
    (m : Material) : Material :=
  {| name := name m; id := id m; _shader := _shader m; variants := variants m;
     parameters := parameters m; alphaTest := alphaTest m;
     alphaToCoverage := alphaToCoverage m;
     blend := blend m; blendSrc := blendSrc m; blendDst := blendDst m;
     blendEquation := blendEquation m;
     separateAlphaBlend := separateAlphaBlend m; blendSrcAlpha := blendSrcAlpha m;
     blendDstAlpha := blendDstAlpha m; blendAlphaEquation := blendAlphaEquation m;
     cull := cull m; depthTest := depthTest m; depthWrite := depthWrite m;
     stencilFront := front; stencilBack := back;
     depthBias := depthBias m; slopeDepthBias := slopeDepthBias m;
     redWrite := redWrite m; greenWrite := greenWrite m; blueWrite := blueWrite m;
     alphaWrite := alphaWrite m; meshInstances := consumers;
     _shaderVersion := _shaderVersion m; _scene := scene;
     _dirtyBlend := _dirtyBlend m; dirty := dirty m |}.

(** A default material with two consumers, a scene, a shader with two
    cached variants and one stencil block used for both faces. *)
Definition sample_material : Material :=
  with_variants {[ "forward" := 5%positive; "shadow" := 6%positive ]}
    (set_shader (Some 5%positive)
       (linked [1%positive; 2%positive] (Some 1%positive)
          (Some 1%positive) (Some 1%positive)
          (@constructor engine_graphics 0))).

Definition sample_meshInstance : MeshInstance.t :=
  {| MeshInstance._shader := [Some 5%positive; None; Some 6%positive];
     MeshInstance._material := Some 1%positive |}.

(** The sample material is [Material.defaultMaterial] itself. *)
Definition sample_world : World :=
  {| materialHeap := {[ 1%positive := sample_material ]};
     meshInstanceHeap :=
       {[ 1%positive := sample_meshInstance; 2%positive := sample_meshInstance ]};
     shaderHeap := {[ 5%positive := {| Shader.failed := true |};
                      6%positive := {| Shader.failed := false |} ]};
     stencilHeap := {[ 1%positive := {[ "ref" := 1; "readMask" := 255 ]} ]};
     sceneHeap :=
       {[ 1%positive :=
            {| Scene.layers := {| LayerComposition._dirtyBlend := false |} |} ]};
     defaultMaterial := Some 1%positive;
     idCounter := 1;
     calls := [] |}.

(** The same material outside any scene, with another material as the
    fallback. *)
Definition sample_world_no_scene : World :=
  {| materialHeap :=
       {[ 1%positive :=
            linked [1%positive; 2%positive] None None None sample_material;
          2%positive := @constructor engine_graphics 1 ]};
     meshInstanceHeap :=
       {[ 1%positive := sample_meshInstance; 2%positive := sample_meshInstance ]};
     shaderHeap := {[ 5%positive := {| Shader.failed := true |} ]};
     stencilHeap := ∅;
     sceneHeap :=
       {[ 1%positive :=
            {| Scene.layers := {| LayerComposition._dirtyBlend := false |} |} ]};
     defaultMaterial := Some 2%positive;
     idCounter := 2;
     calls := [] |}.

(** ** Further well-formedness and invariants *)

(** The preset values are pairwise distinct. *)
Class PresetsDistinct `{SceneConstants} := {
  presets_distinct :
    NoDup [BLEND_NONE; BLEND_NORMAL; BLEND_PREMULTIPLIED; BLEND_ADDITIVE;
           BLEND_ADDITIVEALPHA; BLEND_MULTIPLICATIVE2X; BLEND_SCREEN;
           BLEND_MULTIPLICATIVE; BLEND_MIN; BLEND_MAX]
}.

(** The shader, when set, is a live object. *)
Definition shader_live (w : World) (m : Material) : Prop :=
  ∀ s, _shader m = Some s → is_Some (shaderHeap w !! s).


(** A view of a material that none of the field updates changes. *)
Definition ignores_updates {X} (proj : Material → X) : Prop :=
  (∀ b s d e m, proj (with_blendState b s d e m) = proj m) ∧
  (∀ b m, proj (with__dirtyBlend b m) = proj m) ∧
  (∀ b m, proj (with_dirty b m) = proj m) ∧
  (∀ ps m, proj (with_parameters ps m) = proj m) ∧
  (∀ vs m, proj (with_variants vs m) = proj m) ∧
  (∀ s m, proj (set_shader s m) = proj m).

(** Across a call that constructs nothing: every material is still there
    with the same view, no material appears, and [id] is not advanced. *)
Definition kept {X} (proj : Material → X) (w w' : World) : Prop :=
  (∀ l m, materialHeap w !! l = Some m →
     ∃ m', materialHeap w' !! l = Some m' ∧ proj m' = proj m) ∧
  (∀ l, materialHeap w !! l = None → materialHeap w' !! l = None) ∧
  idCounter w' = idCounter w.

(** Across a call that constructs one material at [c]. *)
Definition constructed {X} (proj : Material → X) (c : loc) (w w' : World) : Prop :=
  (∀ l m, materialHeap w !! l = Some m →
     ∃ m', materialHeap w' !! l = Some m' ∧ proj m' = proj m) ∧
  materialHeap w !! c = None ∧
  (∃ m', materialHeap w' !! c = Some m' ∧ id m' = idCounter w) ∧
  (∀ l, l ≠ c → materialHeap w !! l = None → materialHeap w' !! l = None) ∧
  idCounter w' = idCounter w + 1.

(** The counter [id] is a double: [id++] is exact while the counter is a
    natural number below 2^53. *)
Definition safe_counter (w : World) : Prop := 0 ≤ idCounter w < 2 ^ 53.

(** Material ids are below the counter and pairwise distinct. *)
Definition ids_unique (w : World) : Prop :=
  (∀ l m, materialHeap w !! l = Some m → id m < idCounter w) ∧
  (∀ l1 l2 m1 m2, materialHeap w !! l1 = Some m1 → materialHeap w !! l2 = Some m2 →
     id m1 = id m2 → l1 = l2).

(** ** The calls of [setParameters] *)

(** An entry once [setParameters] has visited it: its handle is the one it
    had, or the one [resolve] gives for its name. *)
Definition bound (device : GraphicsDevice) (paramName : string) (p : Param) : Param :=
  {| scopeId := Some (default (scope_resolve device paramName) (scopeId p));
     data := data p |}.

(** The calls one visit makes, reading the entry in table [ps]. *)
Definition submit_calls (device : GraphicsDevice) (ps : gmap string Param)
    (paramName : string) : list Event :=
  match ps !! paramName with
  | None => []
  | Some p =>
      match scopeId p with
      | Some h => [EvSetValue h (data p)]
      | None =>
          [EvResolve paramName; EvSetValue (scope_resolve device paramName) (data p)]
      end
  end.

(** The table after visiting the names in turn. *)
Definition submit_table (device : GraphicsDevice) (names : list string)
    (ps : gmap string Param) : gmap string Param :=
  foldl (λ t k, alter (bound device k) k t) ps names.

(** The calls of visiting the names in turn. *)
Fixpoint submit_trace (device : GraphicsDevice) (names : list string)
    (ps : gmap string Param) : list Event :=
  match names with
  | [] => []
  | k :: rest =>
      submit_calls device ps k ++ submit_trace device rest (alter (bound device k) k ps)
  end.

(** The names [setParameters] visits. *)
Definition visited (names : option (list string)) (m : Material) : list string :=
  default (map_to_list (parameters m)).*1 names.

(** The batch form of [setParameter], applied to name/value pairs. *)
Definition uniformObjects (pairs : list (string * Data)) : Uniform :=
  UArray ((λ nv, UObject nv.1 nv.2) <$> pairs).

(** ** The release script

    The pure part of the release tooling that follows the class in the
    source file: version arithmetic, and reading and writing the version
    string of package.json. Version numbers are JavaScript numbers holding
    integers; they are integers here, exact as long as they stay below
    2^53. A string is the sequence of its code units, each below 256. *)

Module Release.

(** The structure [readPackageVersion] returns; [build] is a string or
    [null]. *)
Record Version := {
  major : Z;
  minor : Z;
  patch : Z;
  build : option string
}.

(** Truthiness of [version.build]: [null] and the empty string are falsy. *)
Definition truthy (b : option string) : bool :=
  match b with
  | Some (String _ _) => true
  | _ => false
  end.

(** [bumpPackageVersion(version, releaseType)]; [None] is [undefined],
    which the [switch] returns for any other [releaseType]. The numbers
    are doubles: [+ 1] is the one written here for a natural number below
    2^53, which is what the properties of versions assume. *)
Definition bumpPackageVersion (version : Version) (releaseType : string)
    : option Version :=
  if String.eqb releaseType "major" then
    Some {| major := major version + 1; minor := 0; patch := 0;
            build := build version |}
  else if String.eqb releaseType "minor" then
    Some {| major := major version; minor := minor version + 1; patch := 0;
            build := build version |}
  else if String.eqb releaseType "patch" then
    Some {| major := major version; minor := minor version;
            patch := patch version + 1; build := build version |}
  else None.

(** [evolvePackageVersion(version)] *)
Definition evolvePackageVersion (version : Version) : option Version :=
  if truthy (build version) then
    Some {| major := major version; minor := minor version;
            patch := patch version; build := None |}
  else bumpPackageVersion version "patch".

(** The white space [parseInt] skips, among code units below 256:
    TAB, LF, VT, FF, CR, space and no-break space. *)
Definition isWhiteSpace (c : Ascii.ascii) : bool :=
  let n := Ascii.nat_of_ascii c in
  ((9 <=? n) && (n <=? 13) || (n =? 32) || (n =? 160))%nat.

Fixpoint trimStart (s : string) : string :=
  match s with
  | String c rest => if isWhiteSpace c then trimStart rest else s
  | EmptyString => s
  end.

Definition isDigit (c : Ascii.ascii) : bool :=
  let n := Ascii.nat_of_ascii c in ((48 <=? n) && (n <=? 57))%nat.

Definition digitValue (c : Ascii.ascii) : N := N.of_nat (Ascii.nat_of_ascii c - 48).

(** The longest prefix of decimal digits. *)
Fixpoint digitPrefix (s : string) : string :=
  match s with
  | String c rest => if isDigit c then String c (digitPrefix rest) else EmptyString
  | EmptyString => EmptyString
  end.

(** The number a string of digits denotes, read left to right. *)
Fixpoint digitsValue (acc : N) (s : string) : N :=
  match s with
  | String c rest => digitsValue (10 * acc + digitValue c) rest
  | EmptyString => acc
  end.

(** [parseInt(s, 10)]; [None] is [NaN]. *)
Definition parseInt (s : string) : option Z :=
  let s1 := trimStart s in
  let '(negative, s2) :=
    match s1 with
    | String c rest =>
        if Ascii.eqb c "-"%char then (true, rest)
        else if Ascii.eqb c "+"%char then (false, rest)
        else (false, s1)
    | EmptyString => (false, s1)
    end in
  match digitPrefix s2 with
  | EmptyString => None
  | digits =>
      let n := Z.of_N (digitsValue 0 digits) in
      Some (if negative then - n else n)
  end.

(** [s.split(sep)] for a separator of one character. *)
Fixpoint split (sep : Ascii.ascii) (s : string) : list string :=
  match s with
  | EmptyString => [EmptyString]
  | String c rest =>
      if Ascii.eqb c sep then EmptyString :: split sep rest
      else match split sep rest with
           | part :: parts => String c part :: parts
           | [] => [String c EmptyString]
           end
  end.

(** [readPackageVersion()], with [version] the string read from
    package.json; [None] is the thrown "Unable to parse version". *)
Definition readPackageVersion (version : string) : option Version :=
  let versionParts := split "-"%char version in
  versionNumbers ← mapM parseInt (split "."%char (default EmptyString (head versionParts)));
  match versionNumbers with
  | [a; b; c] =>
      Some {| major := a; minor := b; patch := c;
              build := match versionParts !! 1%nat with
                       | Some (String c rest) => Some (String c rest)
                       | _ => None
                       end |}
  | _ => None
  end.

(** The string [writePackageVersion(version)] stores in package.json. *)
Definition formatVersion (version : Version) : string :=
  pretty (major version) +:+ "." +:+ pretty (minor version) +:+ "." +:+
  pretty (patch version) +:+
  (if truthy (build version) then "-" +:+ default EmptyString (build version)
   else EmptyString).

(** Version numbers in the range where the model is exact. *)
Definition safe (n : Z) : Prop := 0 ≤ n < 2 ^ 53.

Definition safe_version (v : Version) : Prop :=
  safe (major v) ∧ safe (minor v) ∧ safe (patch v).

(** The order of releases: by major, then minor, then patch. *)
Definition precedes (v v' : Version) : Prop :=
  major v < major v' ∨
  (major v = major v' ∧
   (minor v < minor v' ∨ (minor v = minor v' ∧ patch v < patch v'))).

(** Whether a character occurs in a string. *)
Fixpoint occurs (c : Ascii.ascii) (s : string) : bool :=
  match s with
  | String c' rest => Ascii.eqb c' c || occurs c rest
  | EmptyString => false
  end.

(** Whether a string holds decimal digits only. *)
Fixpoint all_digits (s : string) : bool :=
  match s with
  | String c rest => isDigit c && all_digits rest
  | EmptyString => true
  end.

(** A build tag that survives writing and reading: [null], or a
    non-empty string without a dash. *)
Definition plain_build (b : option string) : Prop :=
  match b with
  | Some s => s ≠ EmptyString ∧ occurs "-"%char s = false
  | None => True
  end.

End Release.

(** ** Further sample inputs *)

(** A material with one bound and one unbound parameter, and a device
    that resolves every name to handle 9. *)
Definition sample_parameterised : Material :=
  with_parameters
    {[ "uBound" := {| scopeId := Some 3%positive; data := DNumber 1 |};
       "uFree" := {| scopeId := None; data := DNumber 2 |} ]}
    sample_material.

Definition sample_parameterised_world : World :=
  store 1%positive sample_parameterised sample_world.

Definition sample_device : GraphicsDevice :=
  {| scope_resolve := λ _, 9%positive |}.

(** The version 1.48.0-preview of the script's comment. *)
Definition sample_version : Release.Version :=
  {| Release.major := 1; Release.minor := 48; Release.patch := 0;
     Release.build := Some "preview" |}.

(** * Properties *)

Section Properties.
Context {GC : GraphicsConstants} {SC : SceneConstants}.

(** ** The blend codec *)

Lemma blendType_switch_table type m :
  blendType_switch type m =
    match presetTuple type with
    | Some t => with_blendTuple t m
    | None => m
    end.
Proof.
  unfold blendType_switch, presetTuple, preset_table, table_lookup.
  repeat (destruct (type =? _); [reflexivity|]). reflexivity.
Qed.

Lemma presetTuple_in_table type t :
  presetTuple type = Some t → (type, t) ∈ preset_table.
Proof.
  unfold presetTuple. generalize preset_table. intros rows.
  induction rows as [|[c t'] rows IH]; simpl; [done|].
  destruct (Z.eqb_spec type c) as [->|_].
  - intros [= ->]. apply list_elem_of_here.
  - intros Hl. apply list_elem_of_further, IH, Hl.
Qed.

Lemma presetTuple_defined type :
  type ∈ presets → is_Some (presetTuple type).
Proof.
  unfold presets, presetTuple. generalize preset_table. intros rows.
  induction rows as [|[c t'] rows IH]; simpl.
  - intros Hin. inversion Hin.
  - destruct (Z.eqb_spec type c) as [->|Hne]; [eauto|].
    intros Hin. apply IH. apply elem_of_cons in Hin as [?|?]; [done|assumption].
Qed.

Lemma presetTuple_undefined type :
  type ∉ presets → presetTuple type = None.
Proof.
  unfold presets, presetTuple. generalize preset_table. intros rows.
  induction rows as [|[c t'] rows IH]; simpl; [done|].
  intros Hnin. apply not_elem_of_cons in Hnin as [Hne Hnin].
  destruct (Z.eqb_spec type c); [done|]. by apply IH.
Qed.

Lemma blendState_with_blendTuple t m : blendState (with_blendTuple t m) = t.
Proof. by destruct t as [[[b s] d] e]. Qed.

Lemma get_blendType_blendState m1 m2 :
  blendState m1 = blendState m2 → get_blendType m1 = get_blendType m2.
Proof.
  unfold blendState, get_blendType. intros [= -> -> -> ->]. reflexivity.
Qed.

(** The getter decodes every row of the table to the row's preset. *)
Lemma get_blendType_row `{!GraphicsDistinct} c t m :
  (c, t) ∈ preset_table → blendState m = t → get_blendType m = c.
Proof.
  pose proof blendmodes_distinct as Hm. pose proof blendequations_distinct as He.
  repeat (apply NoDup_cons in Hm as [? Hm]). repeat (apply NoDup_cons in He as [? He]).
  repeat match goal with
         | H : _ ∉ _ :: _ |- _ => apply not_elem_of_cons in H as [? H]
         end.
  unfold preset_table, blendState. intros Hin Hst.
  repeat (apply elem_of_cons in Hin as [Hin|Hin]);
    try (by inversion Hin);
    injection Hin as -> ->; injection Hst as Hb Hs Hd Hq;
    unfold get_blendType; rewrite Hb, Hs, Hd, Hq; simpl;
    repeat match goal with
           | |- context [?a =? ?a] => rewrite (Z.eqb_refl a)
           | |- context [?a =? ?b] =>
               rewrite (proj2 (Z.eqb_neq a b)) by congruence
           | _ => progress simpl
           end; reflexivity.
Qed.

(** The switch writes the four blend fields and nothing else. *)
Lemma blendType_switch_frame type m :
  let m1 := blendType_switch type m in
  _scene m1 = _scene m ∧ meshInstances m1 = meshInstances m ∧
  _dirtyBlend m1 = _dirtyBlend m ∧ dirty m1 = dirty m.
Proof.
  simpl. rewrite blendType_switch_table.
  destruct (presetTuple type) as [[[[b s] d] e]|]; done.
Qed.

(** ** Loops and recorded calls *)

Lemma emit_all_calls es w : calls (emit_all es w) = calls w ++ es.
Proof.
  revert w. induction es as [|e es IH]; intros w; simpl.
  - by rewrite app_nil_r.
  - rewrite IH. simpl. by rewrite <- app_assoc.
Qed.

Lemma emit_all_frame es w :
  materialHeap (emit_all es w) = materialHeap w ∧
  meshInstanceHeap (emit_all es w) = meshInstanceHeap w ∧
  shaderHeap (emit_all es w) = shaderHeap w ∧
  stencilHeap (emit_all es w) = stencilHeap w ∧
  sceneHeap (emit_all es w) = sceneHeap w ∧
  defaultMaterial (emit_all es w) = defaultMaterial w ∧
  idCounter (emit_all es w) = idCounter w.
Proof.
  revert w. induction es as [|e es IH]; intros w; simpl; [done|].
  destruct (IH (emit e w)) as (-> & -> & -> & -> & -> & -> & ->). done.
Qed.

Lemma updateKey_live l mi w :
  meshInstanceHeap w !! l = Some mi →
  updateKey l w = Some (emit (EvUpdateKey l) w).
Proof. intros Hl. unfold updateKey. by rewrite Hl. Qed.

Lemma forEach_updateKey xs w :
  Forall (λ l, is_Some (meshInstanceHeap w !! l)) xs →
  forEach updateKey xs w = Some (emit_all (EvUpdateKey <$> xs) w).
Proof.
  revert w. induction xs as [|x xs IH]; intros w Hlive; [done|].
  apply Forall_cons in Hlive as [[mi Hx] Hxs].
  cbn [forEach]. rewrite (updateKey_live _ _ _ Hx). simpl.
  apply IH. exact Hxs.
Qed.

(** A loop whose body leaves the world as it is, at every element. *)
Lemma forEach_fixed {A} (body : A → World → option World) xs w :
  Forall (λ x, body x w = Some w) xs → forEach body xs w = Some w.
Proof.
  induction xs as [|x xs IH]; intros Hfix; simpl; [done|].
  apply Forall_cons in Hfix as [-> Hxs]. simpl. by apply IH.
Qed.

(** The setter, run: the world [w1] after the switch and the dirty
    routing, then one [updateKey] per consumer. *)
Lemma set_blendType_run w this m type :
  materialHeap w !! this = Some m →
  consumers_live w m →
  (blend m ≠ blend (blendType_switch type m) → scene_live w m) →
  ∃ w1 m',
    set_blendType this type w
      = Some (emit_all (EvUpdateKey <$> meshInstances m) w1) ∧
    materialHeap w1 = <[this := m']> (materialHeap w) ∧
    calls w1 = calls w ∧
    (blend m = blend (blendType_switch type m) →
       m' = blendType_switch type m ∧ sceneHeap w1 = sceneHeap w) ∧
    (blend m ≠ blend (blendType_switch type m) →
       match _scene m with
       | Some scene =>
           m' = blendType_switch type m ∧
           sceneHeap w1 =
             <[scene := {| Scene.layers := {| LayerComposition._dirtyBlend := true |} |}]>
               (sceneHeap w)
       | None =>
           m' = with__dirtyBlend true (blendType_switch type m) ∧
           sceneHeap w1 = sceneHeap w
       end).
Proof.
  intros Hm Hlive Hscene.
  destruct (blendType_switch_frame type m) as (Hsc & Hmi & _ & _).
  unfold set_blendType. rewrite Hm. simpl.
  assert (Hkeys : ∀ w1 m', materialHeap w1 = <[this := m']> (materialHeap w) →
            meshInstances m' = meshInstances m →
            meshInstanceHeap w1 = meshInstanceHeap w →
            _updateMeshInstanceKeys this w1
              = Some (emit_all (EvUpdateKey <$> meshInstances m) w1)).
  { intros w1 m' Hh Hl Hmh. unfold _updateMeshInstanceKeys.
    rewrite Hh, lookup_insert_eq. simpl. rewrite Hl.
    apply forEach_updateKey. rewrite Hmh. exact Hlive. }
  case_bool_decide as Hflip.
  - rewrite Hsc. destruct (_scene m) as [scene|] eqn:Escene.
    + destruct (Hscene Hflip scene Escene) as [sc Hsc'].
      unfold mark_scene_dirtyBlend. simpl. rewrite Hsc'. simpl.
      eexists _, (blendType_switch type m).
      split; [by apply (Hkeys _ (blendType_switch type m))|]. simpl.
      repeat split; try done.
    + simpl. eexists _, (with__dirtyBlend true (blendType_switch type m)).
      split; [by apply (Hkeys _ (with__dirtyBlend true (blendType_switch type m)))|].
      simpl. repeat split; try done.
  - simpl. eexists _, (blendType_switch type m).
    split; [by apply (Hkeys _ (blendType_switch type m))|]. simpl.
    repeat split; try done.
Qed.

(** ** Claims about the blend codec *)

(** C1. For every material and each of the ten presets [P], the setter
    returns, and reading [blendType] afterwards gives [P] back. *)
Theorem blendType_round_trip `{!GraphicsDistinct} w this m P :
  materialHeap w !! this = Some m →
  consumers_live w m →
  scene_live w m →
  P ∈ presets →
  ∃ w' m', set_blendType this P w = Some w' ∧
           materialHeap w' !! this = Some m' ∧
           get_blendType m' = P.
Proof.
  intros Hm Hlive Hscene HP.
  destruct (set_blendType_run w this m P Hm Hlive (λ _, Hscene))
    as (w1 & m' & Hrun & Hheap & _ & Hsame & Hflip).
  destruct (presetTuple_defined P HP) as [t Ht].
  pose proof (blendType_switch_table P m) as Hsw. rewrite Ht in Hsw.
  exists (emit_all (EvUpdateKey <$> meshInstances m) w1), m'.
  split; [exact Hrun|]. split.
  { destruct (emit_all_frame (EvUpdateKey <$> meshInstances m) w1) as (-> & _).
    rewrite Hheap. apply lookup_insert_eq. }
  apply (get_blendType_row P t); [by apply presetTuple_in_table|].
  assert (blendState (blendType_switch P m) = t) as Hst
    by (rewrite Hsw; apply blendState_with_blendTuple).
  destruct (decide (blend m = blend (blendType_switch P m))) as [He|Hne].
  - destruct (Hsame He) as [-> _]. exact Hst.
  - specialize (Hflip Hne). destruct (_scene m).
    + destruct Hflip as [-> _]. exact Hst.
    + destruct Hflip as [-> _]. exact Hst.
Qed.

(** C2. A material whose (blend, blendSrc, blendDst, blendEquation) is none
    of the ten tuples of the table reads as [BLEND_NORMAL]. *)
Theorem get_blendType_fallback m :
  blendState m ∉ preset_table.*2 → get_blendType m = BLEND_NORMAL.
Proof.
  intros Hnot. unfold get_blendType.
  repeat match goal with
         | |- (if ?c then _ else _) = _ => destruct c eqn:?
         end; try reflexivity; exfalso; apply Hnot;
    repeat match goal with
           | H : _ && _ = true |- _ => apply andb_prop in H as [? ?]
           | H : negb _ = true |- _ => apply negb_true_iff in H
           | H : (_ =? _) = true |- _ => apply Z.eqb_eq in H
           end;
    unfold blendState;
    repeat match goal with
           | H : blend m = _ |- _ => rewrite H; clear H
           | H : blendSrc m = _ |- _ => rewrite H; clear H
           | H : blendDst m = _ |- _ => rewrite H; clear H
           | H : blendEquation m = _ |- _ => rewrite H; clear H
           end;
    simpl; repeat first [apply list_elem_of_here | apply list_elem_of_further].
Qed.

(** C4. Applying a preset whose tuple flips the blend-enabled flag: with a
    scene attached the scene's [layers._dirtyBlend] becomes true and the
    material's own [_dirtyBlend] is left as it was; with no scene the
    material's [_dirtyBlend] becomes true and no scene is written. *)
Theorem blendType_dirty_routing w this m type b src dst eq :
  materialHeap w !! this = Some m →
  consumers_live w m →
  scene_live w m →
  presetTuple type = Some (b, src, dst, eq) →
  b ≠ blend m →
  ∃ w' m', set_blendType this type w = Some w' ∧
           materialHeap w' !! this = Some m' ∧
           match _scene m with
           | Some scene =>
               sceneHeap w' !! scene =
                 Some {| Scene.layers := {| LayerComposition._dirtyBlend := true |} |} ∧
               _dirtyBlend m' = _dirtyBlend m
           | None =>
               _dirtyBlend m' = true ∧ sceneHeap w' = sceneHeap w
           end.
Proof.
  intros Hm Hlive Hscene Ht Hb.
  destruct (set_blendType_run w this m type Hm Hlive (λ _, Hscene))
    as (w1 & m' & Hrun & Hheap & _ & _ & Hflip).
  pose proof (blendType_switch_table type m) as Hsw. rewrite Ht in Hsw.
  assert (blend m ≠ blend (blendType_switch type m)) as Hne
    by (rewrite Hsw; simpl; congruence).
  specialize (Hflip Hne).
  destruct (emit_all_frame (EvUpdateKey <$> meshInstances m) w1)
    as (Hmh & _ & _ & _ & Hsh & _).
  exists (emit_all (EvUpdateKey <$> meshInstances m) w1), m'.
  split; [exact Hrun|]. split; [rewrite Hmh, Hheap; apply lookup_insert_eq|].
  rewrite Hsh. destruct (_scene m) as [scene|].
  - destruct Hflip as [-> ->]. split; [apply lookup_insert_eq|].
    apply blendType_switch_frame.
  - destruct Hflip as [-> ->]. done.
Qed.

(** C5. A value that is none of the ten presets: the setter returns, the
    four blend fields are unchanged, and neither the material's
    [_dirtyBlend] nor any scene is written. *)
Theorem blendType_unknown_preset w this m type :
  materialHeap w !! this = Some m →
  consumers_live w m →
  type ∉ presets →
  ∃ w' m', set_blendType this type w = Some w' ∧
           materialHeap w' !! this = Some m' ∧
           blendState m' = blendState m ∧
           _dirtyBlend m' = _dirtyBlend m ∧
           sceneHeap w' = sceneHeap w.
Proof.
  intros Hm Hlive Hnot.
  pose proof (blendType_switch_table type m) as Hsw.
  rewrite (presetTuple_undefined type Hnot) in Hsw.
  destruct (set_blendType_run w this m type Hm Hlive)
    as (w1 & m' & Hrun & Hheap & _ & Hsame & _).
  { rewrite Hsw. done. }
  destruct Hsame as [-> Hsh]; [by rewrite Hsw|].
  destruct (emit_all_frame (EvUpdateKey <$> meshInstances m) w1)
    as (Hmh & _ & _ & _ & Hsh' & _).
  exists (emit_all (EvUpdateKey <$> meshInstances m) w1), m.
  rewrite Hsw in Hheap.
  split; [exact Hrun|]. split; [rewrite Hmh, Hheap; apply lookup_insert_eq|].
  repeat split; try done. by rewrite Hsh'.
Qed.

(** C6. For every argument, recognized or not, the setter calls
    [updateKey] on every consumer of the material, in list order. *)
Theorem blendType_updates_every_key w this m type :
  materialHeap w !! this = Some m →
  consumers_live w m →
  scene_live w m →
  ∃ w', set_blendType this type w = Some w' ∧
        calls w' = calls w ++ (EvUpdateKey <$> meshInstances m).
Proof.
  intros Hm Hlive Hscene.
  destruct (set_blendType_run w this m type Hm Hlive (λ _, Hscene))
    as (w1 & m' & Hrun & _ & Hcalls & _).
  eexists. split; [exact Hrun|]. by rewrite emit_all_calls, Hcalls.
Qed.

(** ** Destruction *)

Lemma null_shader_slots_from (done_ : nat) (slots : list (option loc)) :
  foldl (λ acc j, <[j := None]> acc) (replicate done_ None ++ slots)
        (seq done_ (length slots))
  = replicate (done_ + length slots)%nat None.
Proof.
  revert done_. induction slots as [|s slots IH]; intros k; simpl.
  - by rewrite app_nil_r, Nat.add_0_r.
  - replace (<[k := None]> (replicate k None ++ s :: slots))
      with (replicate (S k) None ++ slots).
    + rewrite IH. f_equal. lia.
    + rewrite insert_app_r_alt by (rewrite length_replicate; lia).
      rewrite length_replicate, Nat.sub_diag.
      rewrite replicate_S_end, <- app_assoc. reflexivity.
Qed.

(** The inner loop nulls every slot and keeps the length. *)
Lemma null_shader_slots_replicate slots :
  null_shader_slots slots = replicate (length slots) None.
Proof. apply (null_shader_slots_from 0 slots). Qed.

Lemma null_shader_slots_idemp slots :
  null_shader_slots (null_shader_slots slots) = null_shader_slots slots.
Proof.
  rewrite !null_shader_slots_replicate. by rewrite length_replicate.
Qed.

Lemma detached_idemp this fallback mi :
  detached this fallback (detached this fallback mi) = detached this fallback mi.
Proof.
  unfold detached, MeshInstance.set_material.
  case_bool_decide; simpl; by rewrite null_shader_slots_idemp.
Qed.

(** A loop that rewrites each listed mesh instance in place. *)
Lemma forEach_alter (g : option loc → MeshInstance.t → MeshInstance.t) xs w :
  Forall (λ l, is_Some (meshInstanceHeap w !! l)) xs →
  forEach (λ l w, mi ← meshInstanceHeap w !! l;
                  Some (store_meshInstance l (g (defaultMaterial w) mi) w)) xs w
  = Some (with_meshInstanceHeap
            (foldl (λ h l, alter (g (defaultMaterial w)) l h) (meshInstanceHeap w) xs)
            w).
Proof.
  revert w. induction xs as [|x xs IH]; intros w Hlive.
  - by destruct w.
  - apply Forall_cons in Hlive as [[mi Hx] Hxs].
    cbn [forEach foldl]. rewrite Hx. simpl. rewrite IH.
    + unfold with_meshInstanceHeap, store_meshInstance. simpl.
      replace (<[x := g (defaultMaterial w) mi]> (meshInstanceHeap w))
        with (alter (g (defaultMaterial w)) x (meshInstanceHeap w)); [done|].
      apply map_eq. intros i.
      rewrite lookup_alter, lookup_insert. case_decide; [subst|done].
      by rewrite Hx.
    + simpl. eapply Forall_impl; [exact Hxs|]. simpl. intros l Hl.
      apply lookup_insert_is_Some'. by right.
Qed.

Lemma foldl_alter_lookup {A} (f : A → A) (xs : list loc) (h : gmap loc A) l :
  (∀ x, f (f x) = f x) →
  foldl (λ h l, alter f l h) h xs !! l
  = if decide (l ∈ xs) then f <$> h !! l else h !! l.
Proof.
  intros Hidem. revert h. induction xs as [|x xs IH]; intros h.
  - destruct (decide (l ∈ [])) as [Hin|_]; [by apply elem_of_nil in Hin|done].
  - cbn [foldl]. rewrite IH, lookup_alter.
    destruct (decide (l ∈ xs)) as [Hin|Hnin];
      destruct (decide (x = l)) as [->|Hne];
      destruct (decide (l ∈ _ :: xs)) as [Hin'|Hnin']; try done.
    + destruct (h !! l); simpl; [|done]. by rewrite Hidem.
    + destruct Hnin'. apply list_elem_of_here.
    + destruct Hnin'. by apply list_elem_of_further.
    + destruct Hnin'. apply list_elem_of_here.
    + apply elem_of_cons in Hin' as [?|?]; [by subst|done].
Qed.

(** [destroy()], run: the material loses its variants and its shader, and
    each listed consumer is rewritten by [detached]. *)
Lemma destroy_run w this m :
  materialHeap w !! this = Some m →
  consumers_live w m →
  destroy this w =
    Some (with_meshInstanceHeap
            (foldl (λ h l, alter (detached this (defaultMaterial w)) l h)
                   (meshInstanceHeap w) (meshInstances m))
            (store this (set_shader None (with_variants ∅ m)) w)).
Proof.
  intros Hm Hlive. unfold destroy. rewrite Hm. simpl.
  apply (forEach_alter (detached this) (meshInstances m)
           (store this (set_shader None (with_variants ∅ m)) w)).
  exact Hlive.
Qed.

Lemma destroy_consumer w this m l mi :
  l ∈ meshInstances m →
  meshInstanceHeap w !! l = Some mi →
  foldl (λ h l, alter (detached this (defaultMaterial w)) l h)
        (meshInstanceHeap w) (meshInstances m) !! l
  = Some (detached this (defaultMaterial w) mi).
Proof.
  intros Hin Hl. rewrite foldl_alter_lookup by apply detached_idemp.
  rewrite decide_True by done. by rewrite Hl.
Qed.

(** C3, as the code has it. [destroy()] returns; the material's variant
    cache is empty and its shader reference is null; the material reference
    of every consumer is [Material.defaultMaterial], unless the destroyed
    material is the fallback itself: then the material reference of every
    consumer is null. *)
Theorem destroy_redirects_consumers w this m :
  materialHeap w !! this = Some m →
  consumers_live w m →
  ∃ w' m', destroy this w = Some w' ∧
           materialHeap w' !! this = Some m' ∧
           variants m' = ∅ ∧ _shader m' = None ∧
           ∀ l, l ∈ meshInstances m →
             ∃ mi', meshInstanceHeap w' !! l = Some mi' ∧
                    (defaultMaterial w ≠ Some this →
                       MeshInstance.material mi' = defaultMaterial w) ∧
                    (defaultMaterial w = Some this →
                       MeshInstance.material mi' = None).
Proof.
  intros Hm Hlive. eexists _, _. split; [by apply destroy_run|].
  simpl. split; [apply lookup_insert_eq|]. do 2 (split; [done|]).
  intros l Hin.
  destruct (proj1 (Forall_forall _ _) Hlive l Hin) as [mi Hl].
  exists (detached this (defaultMaterial w) mi).
  split; [by apply (destroy_consumer w this m)|]. unfold detached.
  split; intros Hd.
  - rewrite bool_decide_true; [done|congruence].
  - rewrite bool_decide_false; [done|]. intros Hne. by apply Hne.
Qed.

(** C10. [destroy()] leaves the consumer list as it was, and a second
    [destroy()] returns the world the first one produced. *)
Theorem destroy_keeps_consumers w this m :
  materialHeap w !! this = Some m →
  consumers_live w m →
  ∃ w' m', destroy this w = Some w' ∧
           materialHeap w' !! this = Some m' ∧
           meshInstances m' = meshInstances m ∧
           variants m' = ∅ ∧ _shader m' = None ∧
           destroy this w' = Some w'.
Proof.
  intros Hm Hlive. eexists _, _. split; [by apply destroy_run|].
  simpl. split; [apply lookup_insert_eq|]. do 3 (split; [done|]).
  unfold destroy. simpl. rewrite lookup_insert_eq. simpl.
  unfold store. simpl. rewrite insert_insert_eq.
  apply forEach_fixed. apply Forall_forall. intros l Hin. simpl.
  destruct (proj1 (Forall_forall _ _) Hlive l Hin) as [mi Hl].
  rewrite (destroy_consumer w this m l mi Hin Hl).
  match goal with
  | |- _ = Some ?W =>
      transitivity
        (Some (store_meshInstance l
                 (detached this (defaultMaterial w)
                    (detached this (defaultMaterial w) mi)) W));
        [reflexivity|]
  end.
  rewrite detached_idemp.
  unfold store_meshInstance, with_meshInstanceHeap, with_materialHeap. simpl.
  rewrite (insert_id _ l); [done|]. by apply (destroy_consumer w this m).
Qed.

(** ** Cloning *)

Lemma stencil_clone_run s sp w :
  stencilHeap w !! s = Some sp →
  ∃ s', stencil_clone s w
          = Some (s', with_stencilHeap (<[s' := sp]> (stencilHeap w)) w) ∧
        stencilHeap w !! s' = None.
Proof.
  intros Hs. exists (fresh (dom (stencilHeap w))). unfold stencil_clone.
  rewrite Hs. split; [done|]. apply not_elem_of_dom, is_fresh.
Qed.

(** Name the result of [clone()] and read the two materials back. *)
Ltac clone_returns Hm Hne :=
  eexists _, _; split; [reflexivity|]; simpl;
  rewrite lookup_insert_eq, lookup_insert_ne, lookup_insert_ne, Hm by done;
  split; [done|]; split; [reflexivity|]; split; [done|];
  unfold stencil_contents, renderState; simpl.

(** C7. [clone()] returns a new material: its scalar render state and the
    contents of its stencil blocks equal the source's, its shader is the
    source's shader object, its parameter table and consumer list are
    empty, and when the source uses one stencil block for both faces the
    clone uses one (new) block for both faces too. The source is left as
    it was. *)
Theorem clone_copies_render_state w this m :
  materialHeap w !! this = Some m →
  stencils_live w m →
  ∃ c w' m', clone this w = Some (c, w') ∧
    materialHeap w !! c = None ∧
    materialHeap w' !! c = Some m' ∧
    materialHeap w' !! this = Some m ∧
    renderState m' = renderState m ∧
    stencil_contents w' (stencilFront m') = stencil_contents w (stencilFront m) ∧
    stencil_contents w' (stencilBack m') = stencil_contents w (stencilBack m) ∧
    _shader m' = _shader m ∧
    parameters m' = ∅ ∧
    meshInstances m' = [] ∧
    (stencilFront m = stencilBack m → stencilFront m' = stencilBack m') ∧
    (∀ s, stencilFront m' = Some s ∨ stencilBack m' = Some s →
          stencilHeap w !! s = None).
Proof.
  intros Hm [Hfront Hback].
  set (c := fresh (dom (materialHeap w))).
  assert (materialHeap w !! c = None) as Hc by apply not_elem_of_dom, is_fresh.
  assert (c ≠ this) as Hne by (intros ->; congruence).
  exists c. unfold clone. rewrite Hm. cbn [mbind option_bind new_Material].
  fold c. unfold store. cbn [materialHeap with_idCounter with_materialHeap].
  rewrite lookup_insert_eq. cbn [mbind option_bind].
  unfold _cloneInternal.
  destruct (stencilFront m) as [sf|] eqn:Ef; destruct (stencilBack m) as [sb|] eqn:Eb.
  - destruct (Hfront sf eq_refl) as [spf Hspf].
    edestruct (stencil_clone_run sf spf) as (sf' & -> & Hsf'); [exact Hspf|].
    cbn [mbind option_bind]. case_bool_decide as Heq.
    + injection Heq as <-. clone_returns Hm Hne.
      rewrite lookup_insert_eq. simpl in Hsf'.
      repeat split; try done. intros s [[= <-]|[= <-]]; done.
    + destruct (Hback sb eq_refl) as [spb Hspb].
      edestruct (stencil_clone_run sb spb) as (sb' & -> & Hsb').
      { simpl. rewrite lookup_insert_ne; [exact Hspb|]. intros ->. simpl in Hsf'.
        congruence. }
      cbn [mbind option_bind]. simpl in Hsf', Hsb'.
      assert (sb' ≠ sf') as Hd by (intros ->; by rewrite lookup_insert_eq in Hsb').
      rewrite lookup_insert_ne in Hsb' by done.
      clone_returns Hm Hne.
      rewrite lookup_insert_ne, !lookup_insert_eq by done.
      repeat split; try done. intros s [[= <-]|[= <-]]; done.
  - destruct (Hfront sf eq_refl) as [spf Hspf].
    edestruct (stencil_clone_run sf spf) as (sf' & -> & Hsf'); [exact Hspf|].
    cbn [mbind option_bind]. clone_returns Hm Hne.
    rewrite lookup_insert_eq. simpl in Hsf'.
    repeat split; try done. intros s [[= <-]|[=]]; done.
  - cbn [mbind option_bind]. rewrite bool_decide_false by done.
    destruct (Hback sb eq_refl) as [spb Hspb].
    edestruct (stencil_clone_run sb spb) as (sb' & -> & Hsb'); [exact Hspb|].
    cbn [mbind option_bind]. clone_returns Hm Hne.
    rewrite lookup_insert_eq. simpl in Hsb'.
    repeat split; try done. intros s [[=]|[= <-]]; done.
  - cbn [mbind option_bind]. clone_returns Hm Hne.
    repeat split; try done. intros s [[=]|[=]].
Qed.

(** ** The parameter table *)

(** The array form is a left-to-right loop over the items. *)
Lemma setParameter_array u us m :
  setParameter (UArray (u :: us)) DUndefined m
  = foldl (λ acc x, setParameter x DUndefined acc) m (u :: us).
Proof.
  cbn [setParameter foldl]. generalize (setParameter u DUndefined m).
  induction us as [|x us IH]; intros acc; [done|]. cbn [foldl]. apply IH.
Qed.

Lemma setParameter_entry_parameters n d m :
  parameters (setParameter_entry n d m)
  = <[n := {| scopeId := parameters m !! n ≫= scopeId; data := d |}]> (parameters m).
Proof.
  unfold setParameter_entry. by destruct (parameters m !! n).
Qed.

(** A key that is present occurs once in the entries of a table. *)
Lemma table_entry_once (ps : gmap string Param) n p :
  ps !! n = Some p →
  length (filter (λ kv, kv.1 = n) (map_to_list ps)) = 1%nat.
Proof.
  intros Hn.
  rewrite <- (insert_id ps n p Hn), <- insert_delete_eq.
  rewrite map_to_list_insert by apply lookup_delete_eq.
  rewrite filter_cons_True by done. simpl. f_equal.
  apply length_zero_iff_nil, elem_of_nil_inv.
  intros [k q] [Hk Hin%elem_of_map_to_list]%list_elem_of_filter.
  simpl in Hk. subst k. by rewrite lookup_delete_eq in Hin.
Qed.

Lemma setParameter_name n d m :
  setParameter (UName n) d m = setParameter_entry n d m.
Proof. by destruct d. Qed.

(** C8. For a name [n] such as "uFoo", one that [Object.prototype] does
    not define: [setParameter(n, v1)] followed by the batch form
    [setParameter([{ name: n, value: v2 }])] leaves exactly one entry for
    [n], holding [v2]; no other name is added or changed; and the batch
    form applies [setParameter] to each item of the array in turn. *)
Theorem setParameter_upserts m n v1 v2 :
  inherited n = false →
  let m2 := setParameter (UArray [UObject n v2]) DUndefined
              (setParameter (UName n) v1 m) in
  (∃ p, getParameter n m2 = Some p ∧ data p = v2) ∧
  length (filter (λ kv, kv.1 = n) (map_to_list (parameters m2))) = 1%nat ∧
  dom (parameters m2) = {[n]} ∪ dom (parameters m) ∧
  (∀ k, k ≠ n → getParameter k m2 = getParameter k m) ∧
  (∀ u us m0,
     setParameter (UArray (u :: us)) DUndefined m0
     = foldl (λ acc x, setParameter x DUndefined acc) m0 (u :: us)).
Proof.
  intros _ m2.
  assert (parameters m2
          = <[n := {| scopeId := parameters m !! n ≫= scopeId; data := v2 |}]>
              (parameters m)) as Hps.
  { unfold m2. rewrite setParameter_name, setParameter_array.
    cbn [foldl setParameter]. rewrite !setParameter_entry_parameters.
    rewrite lookup_insert_eq, insert_insert_eq. done. }
  assert (getParameter n m2
          = Some {| scopeId := parameters m !! n ≫= scopeId; data := v2 |}) as Hget.
  { unfold getParameter. rewrite Hps. apply lookup_insert_eq. }
  split; [eexists; split; [exact Hget|done]|].
  split; [by eapply table_entry_once|].
  split; [rewrite Hps; apply dom_insert_L|].
  split; [|apply setParameter_array].
  intros k Hk. unfold getParameter. rewrite Hps. by apply lookup_insert_ne.
Qed.

(** The example of the specification, on a new material. *)
Example setParameter_uFoo next :
  parameters
    (setParameter (UArray [UObject "uFoo" (DNumber 2)]) DUndefined
       (setParameter (UName "uFoo") (DNumber 1) (constructor next)))
  = {[ "uFoo" := {| scopeId := None; data := DNumber 2 |} ]}.
Proof.
  rewrite setParameter_name, setParameter_array. cbn [foldl setParameter].
  rewrite !setParameter_entry_parameters.
  rewrite lookup_insert_eq, insert_insert_eq. done.
Qed.

(** ** The dirty flag *)

Lemma dirty_kept_same w w' :
  materialHeap w' = materialHeap w → dirty_kept w w'.
Proof.
  intros Hh. split.
  - intros l m Hl Hd. exists m. by rewrite Hh.
  - intros l m' Hn Hl. rewrite Hh in Hl. congruence.
Qed.

Lemma dirty_kept_trans w1 w2 w3 :
  dirty_kept w1 w2 → dirty_kept w2 w3 → dirty_kept w1 w3.
Proof.
  intros [Hold12 Hnew12] [Hold23 Hnew23]. split.
  - intros l m Hl Hd. destruct (Hold12 l m Hl Hd) as (m2 & Hl2 & Hd2).
    eauto.
  - intros l m3 Hn Hl3. destruct (materialHeap w2 !! l) as [m2|] eqn:Hl2.
    + destruct (Hold23 l m2 Hl2 (Hnew12 l m2 Hn Hl2)) as (m3' & Hl3' & Hd3).
      congruence.
    + eauto.
Qed.

(** Writing [this] back with its [dirty] field kept. *)
Lemma dirty_kept_write w w' this m m' :
  materialHeap w !! this = Some m →
  materialHeap w' = <[this := m']> (materialHeap w) →
  (dirty m = true → dirty m' = true) →
  dirty_kept w w'.
Proof.
  intros Hm Hh Hd. split.
  - intros l m0 Hl Hd0. rewrite Hh. destruct (decide (this = l)) as [->|Hne].
    + exists m'. rewrite lookup_insert_eq. split; [done|]. apply Hd. congruence.
    + exists m0. by rewrite lookup_insert_ne.
  - intros l m0 Hn Hl. rewrite Hh in Hl. destruct (decide (this = l)) as [->|Hne].
    + congruence.
    + rewrite lookup_insert_ne in Hl by done. congruence.
Qed.

(** Allocating a dirty material. *)
Lemma dirty_kept_alloc w w' c m' :
  materialHeap w !! c = None →
  materialHeap w' = <[c := m']> (materialHeap w) →
  dirty m' = true →
  dirty_kept w w'.
Proof.
  intros Hc Hh Hd. split.
  - intros l m0 Hl Hd0. exists m0. rewrite Hh, lookup_insert_ne; [done|].
    intros ->. congruence.
  - intros l m0 Hn Hl. rewrite Hh in Hl. destruct (decide (c = l)) as [->|Hne].
    + rewrite lookup_insert_eq in Hl. congruence.
    + rewrite lookup_insert_ne in Hl by done. congruence.
Qed.

Lemma forEach_dirty_kept {A} (body : A → World → option World) xs w w' :
  (∀ x w1 w2, body x w1 = Some w2 → dirty_kept w1 w2) →
  forEach body xs w = Some w' →
  dirty_kept w w'.
Proof.
  intros Hbody. revert w. induction xs as [|x xs IH]; intros w; simpl.
  - intros [= ->]. by apply dirty_kept_same.
  - destruct (body x w) as [w1|] eqn:Hx; simpl; [|done].
    intros Hrest. eapply dirty_kept_trans; eauto.
Qed.

Lemma method_dirty_kept f this w w' :
  (∀ m, dirty (f m) = dirty m) →
  method f this w = Some w' →
  dirty_kept w w'.
Proof.
  intros Hf. unfold method. destruct (materialHeap w !! this) as [m|] eqn:Hm; [|done].
  simpl. intros [= <-]. eapply (dirty_kept_write _ _ this m); [done|done|].
  by rewrite Hf.
Qed.

(** [setParameter] writes the parameter table only. *)
Lemma setParameter_dirty name d m : dirty (setParameter name d m) = dirty m.
Proof.
  assert (Hentry : ∀ n d m, dirty (setParameter_entry n d m) = dirty m).
  { intros n' d' m'. unfold setParameter_entry. by destruct (parameters m' !! n'). }
  revert d m. induction name as [s|n v|items IH] using Uniform_nested_ind;
    intros d m.
  - rewrite setParameter_name. apply Hentry.
  - destruct d; apply Hentry.
  - destruct d; try apply Hentry. destruct items as [|u us]; [apply Hentry|].
    rewrite setParameter_array. revert m.
    induction IH as [|x xs Hx _ IHxs]; intros m; [done|].
    cbn [foldl]. rewrite IHxs. apply Hx.
Qed.

Lemma updateKey_dirty_kept l w w' : updateKey l w = Some w' → dirty_kept w w'.
Proof.
  unfold updateKey. destruct (meshInstanceHeap w !! l); [|done].
  intros [= <-]. by apply dirty_kept_same.
Qed.

Lemma _cloneInternal_frame src cl w copied w' :
  _cloneInternal src cl w = Some (copied, w') →
  materialHeap w' = materialHeap w ∧ dirty copied = dirty cl.
Proof.
  unfold _cloneInternal, stencil_clone. intros Hrun.
  repeat match type of Hrun with
         | context [match ?x with _ => _ end] => destruct x eqn:?
         | context [bool_decide ?P] => destruct (bool_decide P) eqn:?
         | _ => progress simplify_option_eq
         end; done.
Qed.

Lemma set_blendType_dirty_kept this type w w' :
  set_blendType this type w = Some w' → dirty_kept w w'.
Proof.
  unfold set_blendType. destruct (materialHeap w !! this) as [m|] eqn:Hm; [|done].
  cbn [mbind option_bind].
  destruct (blendType_switch_frame type m) as (Hsc & _ & _ & Hd).
  match goal with
  | |- ?inner ≫= _ = _ → _ => destruct inner as [w1|] eqn:Hw1
  end; [|done].
  cbn [mbind option_bind]. intros Hkeys.
  apply (dirty_kept_trans w w1 w').
  - case_bool_decide.
    + rewrite Hsc in Hw1. destruct (_scene m).
      * unfold mark_scene_dirtyBlend in Hw1. simpl in Hw1.
        destruct (sceneHeap w !! _); [|done]. injection Hw1 as <-.
        eapply (dirty_kept_write _ _ this m); [done|done|]. by rewrite Hd.
      * injection Hw1 as <-.
        eapply (dirty_kept_write _ _ this m); [done|done|]. simpl. by rewrite Hd.
    + injection Hw1 as <-.
      eapply (dirty_kept_write _ _ this m); [done|done|]. by rewrite Hd.
  - unfold _updateMeshInstanceKeys in Hkeys.
    destruct (materialHeap w1 !! this); [|done]. simpl in Hkeys.
    eapply forEach_dirty_kept; [|exact Hkeys]. intros x wa wb.
    apply updateKey_dirty_kept.
Qed.

(** C9. [dirty] is true in a constructed material, and across any call
    of the class every material that was dirty is still dirty and every
    material the call created is dirty. *)
Theorem dirty_never_cleared op w w' next :
  call op w = Some w' →
  dirty (constructor next) = true ∧ dirty_kept w w'.
Proof.
  intros Hcall. split; [reflexivity|]. destruct op; simpl in Hcall.
  - (* new Material() *)
    injection Hcall as <-.
    eapply (dirty_kept_alloc _ _ (fresh (dom (materialHeap w)))); [|done|done].
    apply not_elem_of_dom, is_fresh.
  - (* set shader *)
    eapply method_dirty_kept; [|exact Hcall]. done.
  - (* set blendType *)
    by eapply set_blendType_dirty_kept.
  - (* clone *)
    destruct (clone this w) as [[c w1]|] eqn:Hclone; [|done].
    injection Hcall as <-. unfold clone in Hclone.
    destruct (materialHeap w !! this) as [m|]; [|done].
    simpl in Hclone. rewrite lookup_insert_eq in Hclone. simpl in Hclone.
    destruct (_cloneInternal _ _ _) as [[copied w2]|] eqn:Hcopy; [|done].
    injection Hclone as <- <-.
    apply _cloneInternal_frame in Hcopy as [Hh Hd]. simpl in Hh.
    eapply (dirty_kept_alloc _ _ (fresh (dom (materialHeap w)))).
    + apply not_elem_of_dom, is_fresh.
    + simpl. rewrite Hh. apply insert_insert_eq.
    + by rewrite Hd.
  - (* update *)
    unfold update in Hcall. destruct (materialHeap w !! this) as [m|] eqn:Hm; [|done].
    simpl in Hcall.
    destruct (_shader m); [destruct (shaderHeap w !! _); [|done]|];
      injection Hcall as <-; by eapply (dirty_kept_write _ _ this m).
  - (* clearParameters *)
    eapply method_dirty_kept; [|exact Hcall]. done.
  - (* clearVariants *)
    unfold clearVariants in Hcall.
    destruct (materialHeap w !! this) as [m|] eqn:Hm; [|done].
    cbn [mbind option_bind] in Hcall.
    apply (dirty_kept_trans w (store this (with_variants ∅ m) w) w');
      [by eapply (dirty_kept_write _ _ this m)|].
    eapply forEach_dirty_kept; [|exact Hcall]. intros l w1 w2. simpl.
    destruct (meshInstanceHeap w1 !! l); [|done]. intros [= <-].
    by apply dirty_kept_same.
  - (* setParameter *)
    eapply method_dirty_kept; [|exact Hcall]. intros m. apply setParameter_dirty.
  - (* deleteParameter *)
    eapply method_dirty_kept; [|exact Hcall]. intros m. unfold deleteParameter.
    by destruct (parameters m !! name0).
  - (* setParameters *)
    unfold setParameters in Hcall.
    destruct (materialHeap w !! this) as [m|] eqn:Hm; [|done]. simpl in Hcall.
    eapply forEach_dirty_kept; [|exact Hcall]. intros paramName w1 w2. simpl.
    destruct (materialHeap w1 !! this) as [m1|] eqn:Hm1; [|done]. simpl.
    destruct (parameters m1 !! paramName) as [parameter|].
    + destruct (scopeId parameter); intros [= <-].
      * by apply dirty_kept_same.
      * by eapply (dirty_kept_write _ _ this m1).
    + intros [= <-]. by apply dirty_kept_same.
  - (* destroy *)
    unfold destroy in Hcall.
    destruct (materialHeap w !! this) as [m|] eqn:Hm; [|done].
    cbn [mbind option_bind] in Hcall.
    apply (dirty_kept_trans w (store this (set_shader None (with_variants ∅ m)) w) w');
      [by eapply (dirty_kept_write _ _ this m)|].
    eapply forEach_dirty_kept; [|exact Hcall]. intros l w1 w2. simpl.
    destruct (meshInstanceHeap w1 !! l); [|done]. intros [= <-].
    by apply dirty_kept_same.
Qed.

End Properties.

(** * Further properties of the class *)

Section Codec.
Context {GC : GraphicsConstants} {SC : SceneConstants}.

Lemma table_lookup_row (rows : list (Z * (bool * Z * Z * Z))) c t :
  NoDup rows.*1 → (c, t) ∈ rows → table_lookup c rows = Some t.
Proof.
  induction rows as [|[c' t'] rows IH]; simpl; intros Hnd Hin.
  - by apply elem_of_nil in Hin.
  - apply NoDup_cons in Hnd as [Hc' Hnd].
    apply elem_of_cons in Hin as [[= -> ->]|Hin].
    + by rewrite Z.eqb_refl.
    + destruct (Z.eqb_spec c c') as [->|_]; [|by apply IH].
      destruct Hc'. apply list_elem_of_fmap. by exists (c', t).
Qed.

Lemma with_blendTuple_blendState m : with_blendTuple (blendState m) m = m.
Proof. by destruct m. Qed.

(** X1. Reading the preset and writing it back is the identity on every
    material whose four blend fields are a row of the table. *)
Theorem blendType_switch_get_blendType `{!GraphicsDistinct} `{!PresetsDistinct} m :
  blendState m ∈ preset_table.*2 →
  blendType_switch (get_blendType m) m = m.
Proof.
  intros Hin. apply list_elem_of_fmap in Hin as ([c t] & Ht & Hin). simpl in Ht.
  rewrite (get_blendType_row c t m Hin Ht), blendType_switch_table.
  unfold presetTuple. rewrite (table_lookup_row _ c t); [|exact presets_distinct|done].
  rewrite <- Ht. apply with_blendTuple_blendState.
Qed.

(** X2. The getter only ever returns one of the ten preset values. *)
Theorem get_blendType_in_presets m : get_blendType m ∈ presets.
Proof.
  unfold get_blendType, presets, preset_table.
  repeat match goal with
         | |- (if ?c then _ else _) ∈ _ => destruct c
         end; cbn [fmap list_fmap fst];
    repeat first [apply list_elem_of_here | apply list_elem_of_further].
Qed.

End Codec.

Section Setter.
Context {GC : GraphicsConstants} {SC : SceneConstants}.

Lemma forEach_updateKey_inv xs w w' :
  forEach updateKey xs w = Some w' →
  Forall (λ l, is_Some (meshInstanceHeap w !! l)) xs ∧
  w' = emit_all (EvUpdateKey <$> xs) w.
Proof.
  revert w. induction xs as [|x xs IH]; intros w; cbn [forEach].
  - intros [= <-]. split; [constructor|reflexivity].
  - destruct (updateKey x w) as [wx|] eqn:Hx; [|done].
    cbn [mbind option_bind]. intros Hrest.
    unfold updateKey in Hx.
    destruct (meshInstanceHeap w !! x) as [mi|] eqn:Hmi; [|done].
    injection Hx as <-.
    destruct (IH _ Hrest) as [Hlive ->]. split; [|reflexivity].
    apply Forall_cons. split; [by eexists|exact Hlive].
Qed.

Lemma blendType_switch_idemp type m :
  blendType_switch type (blendType_switch type m) = blendType_switch type m.
Proof.
  rewrite !blendType_switch_table.
  destruct (presetTuple type) as [[[[b s] d] e]|]; done.
Qed.

Lemma blendType_switch_with__dirtyBlend type b m :
  blendType_switch type (with__dirtyBlend b m)
  = with__dirtyBlend b (blendType_switch type m).
Proof.
  rewrite !blendType_switch_table.
  destruct (presetTuple type) as [[[[b' s] d] e]|]; done.
Qed.

(** What a returning call of the setter did: the world [w1] after the
    switch and the dirty routing, then the [updateKey] calls. *)
Lemma set_blendType_inv w this m type w' :
  materialHeap w !! this = Some m →
  set_blendType this type w = Some w' →
  consumers_live w m ∧
  ∃ w1 m', w' = emit_all (EvUpdateKey <$> meshInstances m) w1 ∧
    materialHeap w1 = <[this := m']> (materialHeap w) ∧
    meshInstanceHeap w1 = meshInstanceHeap w ∧
    shaderHeap w1 = shaderHeap w ∧
    stencilHeap w1 = stencilHeap w ∧
    defaultMaterial w1 = defaultMaterial w ∧
    idCounter w1 = idCounter w ∧
    calls w1 = calls w ∧
    (m' = blendType_switch type m ∨
     m' = with__dirtyBlend true (blendType_switch type m)) ∧
    (blend m = blend (blendType_switch type m) →
       m' = blendType_switch type m ∧ sceneHeap w1 = sceneHeap w) ∧
    (∀ s, Some s ≠ _scene m → sceneHeap w1 !! s = sceneHeap w !! s).
Proof.
  intros Hm. unfold set_blendType. rewrite Hm. cbn [mbind option_bind].
  destruct (blendType_switch_frame type m) as (Hsc & Hmi & _ & _).
  match goal with
  | |- ?inner ≫= _ = _ → _ => destruct inner as [w1|] eqn:Hw1
  end; [|done].
  cbn [mbind option_bind]. intros Hkeys.
  assert (∃ m', materialHeap w1 = <[this := m']> (materialHeap w) ∧
            meshInstanceHeap w1 = meshInstanceHeap w ∧
            shaderHeap w1 = shaderHeap w ∧
            stencilHeap w1 = stencilHeap w ∧
            defaultMaterial w1 = defaultMaterial w ∧
            idCounter w1 = idCounter w ∧
            calls w1 = calls w ∧
            (m' = blendType_switch type m ∨
             m' = with__dirtyBlend true (blendType_switch type m)) ∧
            (blend m = blend (blendType_switch type m) →
               m' = blendType_switch type m ∧ sceneHeap w1 = sceneHeap w) ∧
            (∀ s, Some s ≠ _scene m → sceneHeap w1 !! s = sceneHeap w !! s))
    as (m' & Hh & Hmh & Hrest).
  { case_bool_decide as Hflip.
    - rewrite Hsc in Hw1. destruct (_scene m) as [scene|].
      + unfold mark_scene_dirtyBlend in Hw1. simpl in Hw1.
        destruct (sceneHeap w !! scene); [|done]. injection Hw1 as <-.
        exists (blendType_switch type m). simpl.
        repeat split; try done; [by left|].
        intros s Hs. apply lookup_insert_ne. congruence.
      + injection Hw1 as <-.
        exists (with__dirtyBlend true (blendType_switch type m)). simpl.
        repeat split; try done. by right.
    - injection Hw1 as <-. exists (blendType_switch type m). simpl.
      repeat split; try done. by left. }
  unfold _updateMeshInstanceKeys in Hkeys. rewrite Hh, lookup_insert_eq in Hkeys.
  cbn [mbind option_bind] in Hkeys.
  assert (meshInstances m' = meshInstances m) as Hl.
  { destruct Hrest as (_ & _ & _ & _ & _ & [->| ->] & _); simpl; exact Hmi. }
  rewrite Hl in Hkeys. apply forEach_updateKey_inv in Hkeys as [Hlive ->].
  rewrite Hmh in Hlive. split; [exact Hlive|]. exists w1, m'. done.
Qed.

(** X3. The setter writes the four blend fields and [_dirtyBlend] of its
    own material and the dirty flag of its own scene, and nothing else: no
    other field, no other material, no mesh instance, shader, stencil
    block or other scene. *)
Theorem set_blendType_frame w this m type w' :
  materialHeap w !! this = Some m →
  set_blendType this type w = Some w' →
  (∃ m', materialHeap w' = <[this := m']> (materialHeap w) ∧
         with_blendTuple (blendState m) (with__dirtyBlend (_dirtyBlend m) m') = m) ∧
  meshInstanceHeap w' = meshInstanceHeap w ∧
  shaderHeap w' = shaderHeap w ∧
  stencilHeap w' = stencilHeap w ∧
  (∀ s, Some s ≠ _scene m → sceneHeap w' !! s = sceneHeap w !! s) ∧
  defaultMaterial w' = defaultMaterial w ∧
  idCounter w' = idCounter w.
Proof.
  intros Hm Hset.
  destruct (set_blendType_inv w this m type w' Hm Hset)
    as (_ & w1 & m' & -> & Hh & Hmh & Hsh & Hst & Hdm & Hid & _ & Hm' & _ & Hsc).
  destruct (emit_all_frame (EvUpdateKey <$> meshInstances m) w1)
    as (-> & -> & -> & -> & -> & -> & ->).
  split; [|done]. exists m'. split; [done|].
  rewrite blendType_switch_table in Hm'.
  destruct (presetTuple type) as [[[[b s] d] e]|];
    destruct Hm' as [-> | ->]; by destruct m.
Qed.

(** X4. Setting the same value again returns, raises no dirty signal and
    changes no object: only the [updateKey] calls are repeated. *)
Theorem set_blendType_twice w this m type w1 :
  materialHeap w !! this = Some m →
  set_blendType this type w = Some w1 →
  ∃ w2, set_blendType this type w1 = Some w2 ∧
        materialHeap w2 = materialHeap w1 ∧
        sceneHeap w2 = sceneHeap w1 ∧
        meshInstanceHeap w2 = meshInstanceHeap w1 ∧
        calls w2 = calls w1 ++ (EvUpdateKey <$> meshInstances m).
Proof.
  intros Hm Hset.
  destruct (set_blendType_inv w this m type w1 Hm Hset)
    as (Hlive & wa & m' & -> & Hh & Hmh & _ & _ & _ & _ & _ & Hm' & _).
  set (w1 := emit_all (EvUpdateKey <$> meshInstances m) wa).
  destruct (emit_all_frame (EvUpdateKey <$> meshInstances m) wa)
    as (Hh1 & Hmh1 & _ & _ & Hsc1 & _). fold w1 in Hh1, Hmh1, Hsc1.
  assert (materialHeap w1 !! this = Some m') as Hm1
    by (rewrite Hh1, Hh; apply lookup_insert_eq).
  assert (blendType_switch type m' = m' ∧ meshInstances m' = meshInstances m)
    as [Hfix Hl].
  { destruct (blendType_switch_frame type m) as (_ & Hmi & _).
    destruct Hm' as [-> | ->].
    - by rewrite blendType_switch_idemp.
    - by rewrite blendType_switch_with__dirtyBlend, blendType_switch_idemp. }
  destruct (set_blendType_run w1 this m' type Hm1) as (w2 & m2 & Hrun & _).
  { unfold consumers_live. rewrite Hl, Hmh1, Hmh. exact Hlive. }
  { rewrite Hfix. done. }
  eexists. split; [exact Hrun|].
  destruct (set_blendType_inv w1 this m' type _ Hm1 Hrun)
    as (_ & wb & mb & -> & Hhb & Hmhb & _ & _ & _ & _ & Hcb & _ & Hsame & _).
  destruct (emit_all_frame (EvUpdateKey <$> meshInstances m') wb)
    as (-> & -> & _ & _ & -> & _).
  destruct Hsame as [-> Hscb]; [by rewrite Hfix|].
  rewrite emit_all_calls, Hcb, Hhb, Hmhb, Hscb, Hfix, Hl.
  split; [by apply insert_id|]. done.
Qed.

End Setter.

Section Lifecycle.
Context {GC : GraphicsConstants} {SC : SceneConstants}.

(** X5. [update()] on a material with a live shader returns; the material
    becomes dirty whatever it was, the shader's failure flag is cleared,
    every other material and shader is as before, and a second [update()]
    changes nothing. *)
Theorem update_marks_dirty w this m :
  materialHeap w !! this = Some m →
  shader_live w m →
  ∃ w', update this w = Some w' ∧
        materialHeap w' = <[this := with_dirty true m]> (materialHeap w) ∧
        (∀ s, _shader m = Some s →
              shaderHeap w' !! s = Some {| Shader.failed := false |}) ∧
        (∀ s, _shader m ≠ Some s → shaderHeap w' !! s = shaderHeap w !! s) ∧
        meshInstanceHeap w' = meshInstanceHeap w ∧
        sceneHeap w' = sceneHeap w ∧
        calls w' = calls w ∧
        update this w' = Some w'.
Proof.
  intros Hm Hlive. unfold update at 1. rewrite Hm. cbn [mbind option_bind].
  destruct (_shader m) as [s|] eqn:Hs.
  - destruct (Hlive s Hs) as [sh Hsh]. simpl. rewrite Hsh. simpl.
    eexists. split; [reflexivity|]. simpl.
    split; [done|]. split; [by intros ? [= <-]; apply lookup_insert_eq|].
    split; [intros s' Hne; apply lookup_insert_ne; congruence|].
    do 3 (split; [done|]).
    unfold update. simpl. rewrite lookup_insert_eq. simpl. rewrite Hs.
    rewrite lookup_insert_eq. simpl. unfold store, with_shaderHeap. simpl.
    by rewrite !insert_insert_eq.
  - eexists. split; [reflexivity|]. simpl.
    do 2 (split; [done|]). do 4 (split; [done|]).
    unfold update. simpl. rewrite lookup_insert_eq. simpl. rewrite Hs.
    unfold store. simpl. by rewrite insert_insert_eq.
Qed.

(** X6. [clearVariants()] empties the variant cache, nulls every shader
    slot of every listed consumer and keeps the number of slots; it keeps
    the material's own shader, the consumers' material references and
    every mesh instance that is not in the list. *)
Theorem clearVariants_nulls_slots w this m :
  materialHeap w !! this = Some m →
  consumers_live w m →
  ∃ w', clearVariants this w = Some w' ∧
        materialHeap w' = <[this := with_variants ∅ m]> (materialHeap w) ∧
        (∀ l mi, l ∈ meshInstances m → meshInstanceHeap w !! l = Some mi →
           meshInstanceHeap w' !! l =
             Some {| MeshInstance._shader :=
                       replicate (length (MeshInstance._shader mi)) None;
                     MeshInstance._material := MeshInstance._material mi |}) ∧
        (∀ l, l ∉ meshInstances m →
           meshInstanceHeap w' !! l = meshInstanceHeap w !! l) ∧
        shaderHeap w' = shaderHeap w ∧
        calls w' = calls w.
Proof.
  intros Hm Hlive. unfold clearVariants. rewrite Hm. cbn [mbind option_bind].
  set (g := λ (_ : option loc) (mi : MeshInstance.t),
          {| MeshInstance._shader := null_shader_slots (MeshInstance._shader mi);
             MeshInstance._material := MeshInstance._material mi |}).
  assert (∀ d x, g d (g d x) = g d x) as Hidem.
  { intros d x. unfold g. simpl. by rewrite null_shader_slots_idemp. }
  rewrite (forEach_alter g (meshInstances m) (store this (with_variants ∅ m) w) Hlive).
  eexists. split; [reflexivity|]. simpl. split; [done|].
  split; [|split; [|done]].
  - intros l mi Hin Hl. rewrite foldl_alter_lookup by apply Hidem.
    rewrite decide_True, Hl by done. simpl. unfold g.
    by rewrite null_shader_slots_replicate.
  - intros l Hnin. rewrite foldl_alter_lookup by apply Hidem.
    by rewrite decide_False.
Qed.


End Lifecycle.

Section ParameterTable.

(** X8. Lookup after [setParameter(name, data)], for a name that
    [Object.prototype] does not define: the entry for [name] holds [data]
    and keeps the handle it had (a new entry has none); every other name
    reads as before. *)
Theorem getParameter_setParameter n d m k :
  inherited n = false →
  getParameter k (setParameter (UName n) d m)
  = if decide (k = n)
    then Some {| scopeId := getParameter n m ≫= scopeId; data := d |}
    else getParameter k m.
Proof.
  intros _.
  unfold getParameter. rewrite setParameter_name, setParameter_entry_parameters.
  case_decide as Hk.
  - subst k. apply lookup_insert_eq.
  - by apply lookup_insert_ne.
Qed.

(** X9. Lookup after [deleteParameter(name)], for a name that
    [Object.prototype] does not define: [name] reads [undefined] and every
    other name reads as before; for a name that was not there nothing
    changes. *)
Theorem getParameter_deleteParameter n m k :
  inherited n = false →
  getParameter k (deleteParameter n m)
  = if decide (k = n) then None else getParameter k m.
Proof.
  intros _.
  unfold getParameter, deleteParameter.
  destruct (parameters m !! n) as [p|] eqn:Hn; simpl.
  - case_decide as Hk; [subst k; apply lookup_delete_eq|by apply lookup_delete_ne].
  - case_decide as Hk; [by subst k|done].
Qed.

(** X10. Adding a parameter that was not there and deleting it again
    gives back the material as it was. *)
Theorem deleteParameter_setParameter n d m :
  getParameter n m = None →
  deleteParameter n (setParameter (UName n) d m) = m.
Proof.
  unfold getParameter. intros Hn.
  rewrite setParameter_name. unfold setParameter_entry, deleteParameter.
  rewrite Hn. simpl. rewrite lookup_insert_eq. simpl.
  rewrite delete_insert_id by done. by destruct m.
Qed.

Lemma foldl_uniformObjects (pairs : list (string * Data)) m k :
  getParameter k
    (foldl (λ acc x, setParameter x DUndefined acc) m
       ((λ nv, UObject nv.1 nv.2) <$> pairs))
  = match (list_to_map (reverse pairs) : gmap string Data) !! k with
    | Some v => Some {| scopeId := getParameter k m ≫= scopeId; data := v |}
    | None => getParameter k m
    end.
Proof.
  induction pairs as [|[n v] pairs IH] using rev_ind; [done|].
  rewrite fmap_app, foldl_app, reverse_app. cbn [fmap list_fmap foldl reverse].
  cbn [setParameter fst snd]. unfold getParameter in *.
  rewrite setParameter_entry_parameters. simpl.
  destruct (decide (k = n)) as [->|Hne].
  - rewrite !lookup_insert_eq, IH.
    by destruct (list_to_map (reverse pairs) !! n).
  - rewrite !lookup_insert_ne by done. apply IH.
Qed.

(** X11. A batch of [{ name, value }] objects, none under a name that
    [Object.prototype] defines: each name ends with the value of its last
    occurrence in the array and keeps the handle it had before the call;
    names the array does not mention read as before. *)
Theorem setParameter_batch_last_wins p pairs m k :
  Forall (λ nv, inherited nv.1 = false) (p :: pairs) →
  getParameter k (setParameter (uniformObjects (p :: pairs)) DUndefined m)
  = match (list_to_map (reverse (p :: pairs)) : gmap string Data) !! k with
    | Some v => Some {| scopeId := getParameter k m ≫= scopeId; data := v |}
    | None => getParameter k m
    end.
Proof.
  intros _.
  unfold uniformObjects. rewrite fmap_cons, setParameter_array.
  apply (foldl_uniformObjects (p :: pairs)).
Qed.

(** X12. The empty array is not an empty batch: its [length] is falsy, so
    [setParameter([])] falls through and writes an entry named
    "undefined" with [undefined] data; every other name reads as before. *)
Theorem setParameter_empty_array m k :
  getParameter k (setParameter (UArray []) DUndefined m)
  = if decide (k = "undefined")
    then Some {| scopeId := getParameter "undefined" m ≫= scopeId;
                 data := DUndefined |}
    else getParameter k m.
Proof.
  unfold getParameter. cbn [setParameter].
  rewrite setParameter_entry_parameters.
  case_decide as Hk.
  - subst k. apply lookup_insert_eq.
  - by apply lookup_insert_ne.
Qed.

End ParameterTable.

Section Submission.

Lemma bound_idemp device k p : bound device k (bound device k p) = bound device k p.
Proof. done. Qed.

Lemma bound_of_bound device k p h :
  scopeId p = Some h → bound device k p = p.
Proof. destruct p as [sid d]. simpl. intros ->. done. Qed.

Lemma foldl_alter_key {A} (f : string → A → A) (ks : list string)
    (t : gmap string A) k :
  (∀ j x, f j (f j x) = f j x) →
  foldl (λ t j, alter (f j) j t) t ks !! k
  = if decide (k ∈ ks) then f k <$> t !! k else t !! k.
Proof.
  intros Hidem. revert t. induction ks as [|j ks IH]; intros t.
  - destruct (decide (k ∈ [])) as [Hin|_]; [by apply elem_of_nil in Hin|done].
  - cbn [foldl]. rewrite IH, lookup_alter.
    destruct (decide (k ∈ ks)) as [Hin|Hnin];
      destruct (decide (j = k)) as [->|Hne];
      destruct (decide (k ∈ _ :: ks)) as [Hin'|Hnin']; try done.
    + destruct (t !! k); simpl; [|done]. by rewrite Hidem.
    + destruct Hnin'. apply list_elem_of_here.
    + destruct Hnin'. by apply list_elem_of_further.
    + destruct Hnin'. apply list_elem_of_here.
    + apply elem_of_cons in Hin' as [?|?]; [by subst|done].
Qed.

Lemma store_id this m w :
  materialHeap w !! this = Some m → store this m w = w.
Proof.
  intros Hm. destruct w. unfold store, with_materialHeap. simpl in *.
  by rewrite insert_id.
Qed.

Lemma with_parameters_id m : with_parameters (parameters m) m = m.
Proof. by destruct m. Qed.

(** The loop of [setParameters], run on any list of names. *)
Lemma setParameters_loop device this names w m :
  materialHeap w !! this = Some m →
  forEach
    (λ paramName w,
       m ← materialHeap w !! this;
       match parameters m !! paramName with
       | Some parameter =>
           match scopeId parameter with
           | Some h => Some (emit (EvSetValue h (data parameter)) w)
           | None =>
               let h := scope_resolve device paramName in
               let bound := {| scopeId := Some h; data := data parameter |} in
               Some (emit (EvSetValue h (data parameter))
                       (emit (EvResolve paramName)
                          (store this
                             (with_parameters (<[paramName := bound]> (parameters m)) m)
                             w)))
           end
       | None => Some w
       end)
    names w
  = Some (emit_all (submit_trace device names (parameters m))
            (store this
               (with_parameters (submit_table device names (parameters m)) m) w)).
Proof.
  revert w m. induction names as [|k names IH]; intros w m Hm.
  - cbn [forEach submit_trace submit_table foldl emit_all].
    by rewrite with_parameters_id, store_id.
  - cbn [forEach submit_trace submit_table foldl]. rewrite Hm.
    cbn [mbind option_bind]. unfold submit_calls.
    destruct (parameters m !! k) as [p|] eqn:Hk.
    + destruct (scopeId p) as [h|] eqn:Hh.
      * cbn [mbind option_bind]. rewrite (IH _ m) by done.
        replace (alter (bound device k) k (parameters m)) with (parameters m).
        { reflexivity. }
        apply map_eq. intros j. rewrite lookup_alter. case_decide; [subst|done].
        rewrite Hk. simpl. by rewrite (bound_of_bound device j p h).
      * cbn [mbind option_bind].
        set (m1 := with_parameters
                     (<[k := {| scopeId := Some (scope_resolve device k);
                                data := data p |}]> (parameters m)) m).
        rewrite (IH _ m1) by (simpl; apply lookup_insert_eq).
        replace (alter (bound device k) k (parameters m)) with (parameters m1).
        { unfold store, m1. simpl. rewrite insert_insert_eq. reflexivity. }
        unfold m1. simpl. apply map_eq. intros j.
        rewrite lookup_alter, lookup_insert. case_decide; [subst|done].
        rewrite Hk. unfold bound. simpl. by rewrite Hh.
    + cbn [mbind option_bind]. rewrite (IH _ m) by done.
      replace (alter (bound device k) k (parameters m)) with (parameters m).
      { reflexivity. }
      apply map_eq. intros j. rewrite lookup_alter. case_decide; [subst|done].
      by rewrite Hk.
Qed.

Lemma setParameters_run device this names w m :
  materialHeap w !! this = Some m →
  setParameters this device names w
  = Some (emit_all (submit_trace device (visited names m) (parameters m))
            (store this
               (with_parameters (submit_table device (visited names m) (parameters m)) m)
               w)).
Proof.
  intros Hm. unfold setParameters. rewrite Hm. cbn [mbind option_bind].
  by apply setParameters_loop.
Qed.

Lemma submit_table_lookup device names ps k :
  submit_table device names ps !! k
  = if decide (k ∈ names) then bound device k <$> ps !! k else ps !! k.
Proof. apply foldl_alter_key. intros j x. apply bound_idemp. Qed.

(** With no name repeated, every visit reads the entry as it was before
    the call. *)
Lemma submit_trace_NoDup device names ps :
  NoDup names →
  submit_trace device names ps = names ≫= submit_calls device ps.
Proof.
  intros Hnd. revert ps. induction Hnd as [|k names Hk Hnd IH]; intros ps; [done|].
  cbn [submit_trace]. rewrite IH. cbn [mbind list_bind]. f_equal.
  clear IH Hnd. induction names as [|j names IH]; [done|].
  apply not_elem_of_cons in Hk as [Hne Hk].
  cbn [mbind list_bind]. rewrite IH by done. f_equal.
  unfold submit_calls. by rewrite lookup_alter_ne.
Qed.

(** X13. [setParameters] returns, whether the names are given (none of
    them one that [Object.prototype] defines) or left out. It binds every
    visited entry that had no handle to [resolve(name)], keeps handles that
    were set, never changes [data], never adds or removes an entry, skips
    names that are not in the table, and writes no other field of the
    material, and no mesh instance, shader or scene. *)
Theorem setParameters_binds device this names w m :
  materialHeap w !! this = Some m →
  Forall (λ k, inherited k = false) (default [] names) →
  ∃ w' m', setParameters this device names w = Some w' ∧
    materialHeap w' = <[this := m']> (materialHeap w) ∧
    m' = with_parameters (parameters m') m ∧
    (∀ k, getParameter k m'
          = if decide (k ∈ visited names m)
            then bound device k <$> getParameter k m
            else getParameter k m) ∧
    meshInstanceHeap w' = meshInstanceHeap w ∧
    shaderHeap w' = shaderHeap w ∧
    sceneHeap w' = sceneHeap w.
Proof.
  intros Hm _. rewrite (setParameters_run device this names w m Hm).
  eexists _, _. split; [reflexivity|].
  match goal with
  | |- context [emit_all ?es ?w0] =>
      destruct (emit_all_frame es w0) as (-> & -> & -> & _ & -> & _)
  end.
  simpl. split; [reflexivity|]. split; [done|]. split; [|done].
  intros k. unfold getParameter. simpl. apply submit_table_lookup.
Qed.

(** X14. The calls of [setParameters] when the names are given, name by
    name in the order of the given names (no name twice, as for the keys
    of an object, and none that [Object.prototype] defines): [resolve]
    then [setValue] for an entry without a handle, [setValue] alone for an
    entry with one, nothing for a name that is not in the table. *)
Theorem setParameters_calls device this names w m :
  materialHeap w !! this = Some m →
  NoDup names →
  Forall (λ k, inherited k = false) names →
  ∃ w', setParameters this device (Some names) w = Some w' ∧
        calls w' = calls w ++ (names ≫= submit_calls device (parameters m)).
Proof.
  intros Hm Hnd _. rewrite (setParameters_run device this (Some names) w m Hm).
  eexists. split; [reflexivity|]. rewrite emit_all_calls. simpl. f_equal.
  by apply submit_trace_NoDup.
Qed.

(** X15. Handles are cached: after one [setParameters(device)] a second
    one makes no [resolve] call and changes no object. *)
Theorem setParameters_resolves_once device this w m w1 :
  materialHeap w !! this = Some m →
  setParameters this device None w = Some w1 →
  ∃ w2, setParameters this device None w1 = Some w2 ∧
        materialHeap w2 = materialHeap w1 ∧
        ∀ e, e ∈ drop (length (calls w1)) (calls w2) → ∀ k, e ≠ EvResolve k.
Proof.
  intros Hm. rewrite (setParameters_run device this None w m Hm). intros [= <-].
  set (t1 := submit_table device (visited None m) (parameters m)).
  set (m1 := with_parameters t1 m).
  match goal with
  | |- context [emit_all ?es ?w0] =>
      set (w1 := emit_all es w0);
      destruct (emit_all_frame es w0) as (Hh1 & _); fold w1 in Hh1
  end.
  assert (materialHeap w1 !! this = Some m1) as Hm1
    by (rewrite Hh1; simpl; apply lookup_insert_eq).
  rewrite (setParameters_run device this None w1 m1 Hm1).
  eexists. split; [reflexivity|].
  assert (∀ k p, t1 !! k = Some p → is_Some (scopeId p)) as Hbound.
  { intros k p. unfold t1. rewrite submit_table_lookup.
    case_decide as Hin.
    - destruct (parameters m !! k); simpl; [|done]. intros [= <-]. by eexists.
    - intros Hk. destruct Hin. unfold visited. simpl.
      apply list_elem_of_fmap. exists (k, p). split; [done|].
      by apply elem_of_map_to_list. }
  assert (submit_table device (visited None m1) t1 = t1) as Hfix.
  { apply map_eq. intros k. rewrite submit_table_lookup.
    case_decide; [|done]. destruct (t1 !! k) as [p|] eqn:Hk; [|done]. simpl.
    destruct (Hbound k p Hk) as [h Hh]. by rewrite (bound_of_bound device k p h). }
  split.
  - match goal with
    | |- context [emit_all ?es ?w0] =>
        destruct (emit_all_frame es w0) as (-> & _)
    end.
    change (parameters m1) with t1. rewrite Hfix.
    change (with_parameters t1 m1) with m1. unfold store. simpl.
    by apply insert_id.
  - intros e. rewrite emit_all_calls, drop_app_length.
    change (parameters m1) with t1.
    rewrite submit_trace_NoDup by apply NoDup_fst_map_to_list.
    intros Hin k ->. apply list_elem_of_bind in Hin as (j & Hin & _).
    unfold submit_calls in Hin. destruct (t1 !! j) as [p|] eqn:Hj.
    + destruct (Hbound j p Hj) as [h Hh]. rewrite Hh in Hin.
      by apply list_elem_of_singleton in Hin.
    + by apply elem_of_nil in Hin.
Qed.

End Submission.

Section Invariants.
Context {GC : GraphicsConstants} {SC : SceneConstants}.
Context {X : Type} (proj : Material → X) (Hproj : ignores_updates proj).

Lemma kept_same w w' :
  materialHeap w' = materialHeap w → idCounter w' = idCounter w → kept proj w w'.
Proof.
  intros Hh Hid. split; [|split; [|done]].
  - intros l m Hl. exists m. by rewrite Hh.
  - intros l Hl. by rewrite Hh.
Qed.

Lemma kept_trans w1 w2 w3 : kept proj w1 w2 → kept proj w2 w3 → kept proj w1 w3.
Proof.
  intros (Hold12 & Hnew12 & Hid12) (Hold23 & Hnew23 & Hid23).
  split; [|split; [|congruence]].
  - intros l m Hl. destruct (Hold12 l m Hl) as (m2 & Hl2 & Hp2).
    destruct (Hold23 l m2 Hl2) as (m3 & Hl3 & Hp3). exists m3. split; congruence.
  - intros l Hl. auto.
Qed.

Lemma kept_write w w' this m m' :
  materialHeap w !! this = Some m →
  materialHeap w' = <[this := m']> (materialHeap w) →
  idCounter w' = idCounter w →
  proj m' = proj m →
  kept proj w w'.
Proof.
  intros Hm Hh Hid Hp. split; [|split; [|done]].
  - intros l m0 Hl. rewrite Hh. destruct (decide (this = l)) as [->|Hne].
    + exists m'. rewrite lookup_insert_eq. split; [done|]. congruence.
    + exists m0. by rewrite lookup_insert_ne.
  - intros l Hl. rewrite Hh, lookup_insert_ne; [done|]. intros ->. congruence.
Qed.

Lemma forEach_kept {A} (body : A → World → option World) xs w w' :
  (∀ x w1 w2, body x w1 = Some w2 → kept proj w1 w2) →
  forEach body xs w = Some w' →
  kept proj w w'.
Proof.
  intros Hbody. revert w. induction xs as [|x xs IH]; intros w; simpl.
  - intros [= ->]. by apply kept_same.
  - destruct (body x w) as [w1|] eqn:Hx; simpl; [|done].
    intros Hrest. eapply kept_trans; eauto.
Qed.

Lemma method_kept f this w w' :
  (∀ m, proj (f m) = proj m) →
  method f this w = Some w' →
  kept proj w w'.
Proof.
  intros Hf. unfold method. destruct (materialHeap w !! this) as [m|] eqn:Hm; [|done].
  simpl. intros [= <-]. by eapply (kept_write _ _ this m).
Qed.

Lemma blendType_switch_proj type m : proj (blendType_switch type m) = proj m.
Proof.
  destruct Hproj as (Hb & _). rewrite blendType_switch_table.
  destruct (presetTuple type) as [[[[b s] d] e]|]; [apply Hb|done].
Qed.

Lemma setParameter_proj name d m : proj (setParameter name d m) = proj m.
Proof.
  destruct Hproj as (_ & _ & _ & Hps & _).
  assert (Hentry : ∀ n d m, proj (setParameter_entry n d m) = proj m).
  { intros n' d' m'. unfold setParameter_entry.
    destruct (parameters m' !! n'); apply Hps. }
  revert d m. induction name as [s|n v|items IH] using Uniform_nested_ind;
    intros d m.
  - rewrite setParameter_name. apply Hentry.
  - destruct d; apply Hentry.
  - destruct d; try apply Hentry. destruct items as [|u us]; [apply Hentry|].
    rewrite setParameter_array. revert m.
    induction IH as [|x xs Hx _ IHxs]; intros m; [done|].
    cbn [foldl]. rewrite IHxs. apply Hx.
Qed.

Lemma _cloneInternal_world src cl w copied w' :
  _cloneInternal src cl w = Some (copied, w') →
  materialHeap w' = materialHeap w ∧ idCounter w' = idCounter w ∧
  id copied = id cl.
Proof.
  unfold _cloneInternal, stencil_clone. intros Hrun.
  repeat match type of Hrun with
         | context [match ?x with _ => _ end] => destruct x eqn:?
         | context [bool_decide ?P] => destruct (bool_decide P) eqn:?
         | _ => progress simplify_option_eq
         end; done.
Qed.

(** Every call either constructs nothing or constructs one material. *)
Lemma call_shape op w w' :
  call op w = Some w' → kept proj w w' ∨ ∃ c, constructed proj c w w'.
Proof.
  destruct Hproj as (Hb & Hdb & Hd & Hps & Hvs & Hsh).
  intros Hcall. destruct op; simpl in Hcall.
  - (* new Material() *)
    right. exists (fresh (dom (materialHeap w))). injection Hcall as <-.
    assert (materialHeap w !! fresh (dom (materialHeap w)) = None) as Hc
      by apply not_elem_of_dom, is_fresh.
    split; [|split; [done|split; [|split; [|done]]]]; simpl.
    + intros l m Hl. exists m. rewrite lookup_insert_ne; [done|]. congruence.
    + eexists. by rewrite lookup_insert_eq.
    + intros l Hne Hl. by rewrite lookup_insert_ne.
  - (* set shader *)
    left. eapply method_kept; [|exact Hcall]. intros m. apply Hsh.
  - (* set blendType *)
    left. destruct (materialHeap w !! this) as [m|] eqn:Hm;
      [|by unfold set_blendType in Hcall; rewrite Hm in Hcall].
    destruct (set_blendType_inv w this m type w' Hm Hcall)
      as (_ & w1 & m' & -> & Hh & _ & _ & _ & _ & Hid & _ & Hm' & _).
    destruct (emit_all_frame (EvUpdateKey <$> meshInstances m) w1)
      as (Hh' & _ & _ & _ & _ & _ & Hid').
    eapply (kept_write _ _ this m); [done|by rewrite Hh'|by rewrite Hid'|].
    destruct Hm' as [-> | ->]; [|rewrite Hdb]; apply blendType_switch_proj.
  - (* clone *)
    right. exists (fresh (dom (materialHeap w))).
    assert (materialHeap w !! fresh (dom (materialHeap w)) = None) as Hc
      by apply not_elem_of_dom, is_fresh.
    destruct (clone this w) as [[c w1]|] eqn:Hclone; [|done].
    injection Hcall as <-. unfold clone in Hclone.
    destruct (materialHeap w !! this) as [m|]; [|done].
    simpl in Hclone. rewrite lookup_insert_eq in Hclone. simpl in Hclone.
    destruct (_cloneInternal _ _ _) as [[copied w2]|] eqn:Hcopy; [|done].
    injection Hclone as <- <-.
    apply _cloneInternal_world in Hcopy as (Hh & Hid & Hcid). simpl in Hh, Hid, Hcid.
    split; [|split; [done|split; [|split]]]; simpl; rewrite ?Hh, ?Hid.
    + intros l m0 Hl. exists m0. rewrite !lookup_insert_ne by congruence. done.
    + eexists. by rewrite lookup_insert_eq.
    + intros l Hne Hl. by rewrite !lookup_insert_ne.
    + done.
  - (* update *)
    left. unfold update in Hcall.
    destruct (materialHeap w !! this) as [m|] eqn:Hm; [|done]. simpl in Hcall.
    destruct (_shader m); [destruct (shaderHeap w !! _); [|done]|];
      injection Hcall as <-; by eapply (kept_write _ _ this m).
  - (* clearParameters *)
    left. eapply method_kept; [|exact Hcall]. intros m. apply Hps.
  - (* clearVariants *)
    left. unfold clearVariants in Hcall.
    destruct (materialHeap w !! this) as [m|] eqn:Hm; [|done].
    cbn [mbind option_bind] in Hcall.
    apply (kept_trans w (store this (with_variants ∅ m) w) w');
      [by eapply (kept_write _ _ this m)|].
    eapply forEach_kept; [|exact Hcall]. intros l w1 w2. simpl.
    destruct (meshInstanceHeap w1 !! l); [|done]. intros [= <-].
    by apply kept_same.
  - (* setParameter *)
    left. eapply method_kept; [|exact Hcall]. intros m. apply setParameter_proj.
  - (* deleteParameter *)
    left. eapply method_kept; [|exact Hcall]. intros m. unfold deleteParameter.
    destruct (parameters m !! name0); [apply Hps|done].
  - (* setParameters *)
    left. destruct (materialHeap w !! this) as [m|] eqn:Hm;
      [|by unfold setParameters in Hcall; rewrite Hm in Hcall].
    rewrite (setParameters_run device this names w m Hm) in Hcall.
    injection Hcall as <-.
    match goal with
    | |- context [emit_all ?es ?w0] =>
        destruct (emit_all_frame es w0) as (Hh & _ & _ & _ & _ & _ & Hid)
    end.
    eapply (kept_write _ _ this m); [done|by rewrite Hh|by rewrite Hid|].
    apply Hps.
  - (* destroy *)
    left. unfold destroy in Hcall.
    destruct (materialHeap w !! this) as [m|] eqn:Hm; [|done].
    cbn [mbind option_bind] in Hcall.
    apply (kept_trans w (store this (set_shader None (with_variants ∅ m)) w) w').
    { eapply (kept_write _ _ this m); [done|done|done|]. by rewrite Hsh, Hvs. }
    eapply forEach_kept; [|exact Hcall]. intros l w1 w2. simpl.
    destruct (meshInstanceHeap w1 !! l); [|done]. intros [= <-].
    by apply kept_same.
Qed.

End Invariants.

Section InvariantTheorems.
Context {GC : GraphicsConstants} {SC : SceneConstants}.


(** X17. Ids are not reused while the counter is below 2^53: if the ids
    of all materials are below the counter and pairwise distinct, they
    still are after any call, and an existing material keeps its id. *)
Theorem ids_stay_unique op w w' :
  ids_unique w →
  safe_counter w →
  call op w = Some w' →
  ids_unique w' ∧
  ∀ l m, materialHeap w !! l = Some m →
         ∃ m', materialHeap w' !! l = Some m' ∧ id m' = id m.
Proof.
  intros [Hlt Hdist] _ Hcall.
  assert (ignores_updates id) as Hid by (repeat split).
  destruct (call_shape id Hid op w w' Hcall)
    as [(Hold & Hnew & Hctr)|(c & Hold & Hc & (mc & Hmc & Hidc) & Hnew & Hctr)].
  - split; [|exact Hold].
    assert (∀ l m', materialHeap w' !! l = Some m' →
              ∃ m, materialHeap w !! l = Some m ∧ id m = id m') as Hback.
    { intros l m' Hl'. destruct (materialHeap w !! l) as [m|] eqn:Hl.
      - destruct (Hold l m Hl) as (m2 & Hl2 & Hi). exists m. split; congruence.
      - rewrite (Hnew l Hl) in Hl'. done. }
    split.
    + intros l m' Hl'. destruct (Hback l m' Hl') as (m & Hl & <-).
      rewrite Hctr. by eapply Hlt.
    + intros l1 l2 m1 m2 H1 H2 Heq.
      destruct (Hback l1 m1 H1) as (n1 & G1 & E1).
      destruct (Hback l2 m2 H2) as (n2 & G2 & E2).
      apply (Hdist l1 l2 n1 n2 G1 G2). congruence.
  - split; [|exact Hold].
    assert (∀ l m', materialHeap w' !! l = Some m' →
              (l = c ∧ id m' = idCounter w) ∨
              (∃ m, materialHeap w !! l = Some m ∧ id m = id m')) as Hback.
    { intros l m' Hl'. destruct (decide (l = c)) as [->|Hne].
      - left. split; [done|]. congruence.
      - right. destruct (materialHeap w !! l) as [m|] eqn:Hl.
        + destruct (Hold l m Hl) as (m2 & Hl2 & Hi). exists m. split; congruence.
        + rewrite (Hnew l Hne Hl) in Hl'. done. }
    split.
    + intros l m' Hl'. rewrite Hctr.
      destruct (Hback l m' Hl') as [[_ ->]|(m & Hl & <-)]; [lia|].
      specialize (Hlt l m Hl). lia.
    + intros l1 l2 m1 m2 H1 H2 Heq.
      destruct (Hback l1 m1 H1) as [[-> E1]|(n1 & G1 & E1)];
        destruct (Hback l2 m2 H2) as [[-> E2]|(n2 & G2 & E2)].
      * done.
      * specialize (Hlt l2 n2 G2). lia.
      * specialize (Hlt l1 n1 G1). lia.
      * apply (Hdist l1 l2 n1 n2 G1 G2). congruence.
Qed.

End InvariantTheorems.

Section Construction.
Context {GC : GraphicsConstants} {SC : SceneConstants}.

(** X18. While the counter is below 2^53, [new Material()] takes a
    location no material uses, gives it the current value of the counter
    as id and advances the counter by one; the new material reads as
    [BLEND_NONE], is dirty and has no consumer, shader, parameter or
    variant; every existing material is as before. *)
Theorem new_Material_fresh w :
  safe_counter w →
  let '(this, w') := new_Material w in
  materialHeap w !! this = None ∧
  idCounter w' = idCounter w + 1 ∧
  (∀ l, l ≠ this → materialHeap w' !! l = materialHeap w !! l) ∧
  ∃ m, materialHeap w' !! this = Some m ∧
       id m = idCounter w ∧
       get_blendType m = BLEND_NONE ∧
       dirty m = true ∧
       meshInstances m = [] ∧ _shader m = None ∧
       parameters m = ∅ ∧ variants m = ∅.
Proof.
  intros _. unfold new_Material. simpl.
  split; [apply not_elem_of_dom, is_fresh|]. split; [done|].
  split; [intros l Hne; by apply lookup_insert_ne|].
  eexists. split; [apply lookup_insert_eq|]. simpl. split; [done|].
  split; [|done]. unfold get_blendType. simpl. by rewrite !Z.eqb_refl.
Qed.

(** Name the result of [clone()] and read the clone back. *)
Ltac clone_result :=
  eexists _, _, _; split; [reflexivity|]; simpl;
  rewrite lookup_insert_eq; split; [reflexivity|]; simpl.

(** X19. What [clone()] does not copy, while the counter is below 2^53:
    the clone has the next id and the source's name, an empty variant
    cache, no scene, a clear [_dirtyBlend] and a set [dirty]. Stencil
    blocks that are two objects in the source are two objects in the
    clone, and the source's blocks are as before. No mesh instance, shader
    or scene is written. *)
Theorem clone_starts_detached w this m :
  materialHeap w !! this = Some m →
  stencils_live w m →
  safe_counter w →
  ∃ c w' m', clone this w = Some (c, w') ∧
    materialHeap w' !! c = Some m' ∧
    name m' = name m ∧
    id m' = idCounter w ∧
    idCounter w' = idCounter w + 1 ∧
    variants m' = ∅ ∧
    _scene m' = None ∧
    _dirtyBlend m' = false ∧
    dirty m' = true ∧
    (stencilFront m ≠ stencilBack m → stencilFront m' ≠ stencilBack m') ∧
    (∀ s, is_Some (stencilHeap w !! s) → stencilHeap w' !! s = stencilHeap w !! s) ∧
    meshInstanceHeap w' = meshInstanceHeap w ∧
    shaderHeap w' = shaderHeap w ∧
    sceneHeap w' = sceneHeap w.
Proof.
  intros Hm [Hfront Hback] _.
  unfold clone. rewrite Hm. cbn [mbind option_bind new_Material].
  unfold store. cbn [materialHeap with_idCounter with_materialHeap].
  rewrite lookup_insert_eq. cbn [mbind option_bind].
  unfold _cloneInternal.
  destruct (stencilFront m) as [sf|] eqn:Ef; destruct (stencilBack m) as [sb|] eqn:Eb.
  - destruct (Hfront sf eq_refl) as [spf Hspf].
    edestruct (stencil_clone_run sf spf) as (sf' & -> & Hsf'); [exact Hspf|].
    cbn [mbind option_bind]. simpl in Hsf'. case_bool_decide as Heq.
    + clone_result. repeat split; try done.
      intros s [sp Hs]. apply lookup_insert_ne. congruence.
    + destruct (Hback sb eq_refl) as [spb Hspb].
      edestruct (stencil_clone_run sb spb) as (sb' & -> & Hsb').
      { simpl. rewrite lookup_insert_ne; [exact Hspb|]. congruence. }
      cbn [mbind option_bind]. simpl in Hsb'.
      assert (sb' ≠ sf') as Hd by (intros ->; by rewrite lookup_insert_eq in Hsb').
      rewrite lookup_insert_ne in Hsb' by done.
      clone_result. repeat split; try done.
      * intros _. congruence.
      * intros s [sp Hs]. rewrite !lookup_insert_ne; [done|congruence|congruence].
  - destruct (Hfront sf eq_refl) as [spf Hspf].
    edestruct (stencil_clone_run sf spf) as (sf' & -> & Hsf'); [exact Hspf|].
    cbn [mbind option_bind]. simpl in Hsf'.
    clone_result. repeat split; try done.
    intros s [sp Hs]. apply lookup_insert_ne. congruence.
  - cbn [mbind option_bind]. rewrite bool_decide_false by done.
    destruct (Hback sb eq_refl) as [spb Hspb].
    edestruct (stencil_clone_run sb spb) as (sb' & -> & Hsb'); [exact Hspb|].
    cbn [mbind option_bind]. simpl in Hsb'.
    clone_result. repeat split; try done.
    intros s [sp Hs]. apply lookup_insert_ne. congruence.
  - cbn [mbind option_bind]. clone_result. repeat split; done.
Qed.

End Construction.

(** * The release script *)

Section ReleaseScript.
Import Release.

(** X20. [bumpPackageVersion] returns a version exactly for the release
    types "major", "minor" and "patch" (and [undefined] for anything
    else); the version it returns comes strictly later in release order
    and carries the same build tag. *)
Theorem bumpPackageVersion_advances version releaseType :
  safe_version version →
  (is_Some (bumpPackageVersion version releaseType)
     ↔ releaseType ∈ ["major"; "minor"; "patch"]) ∧
  (∀ v', bumpPackageVersion version releaseType = Some v' →
         precedes version v' ∧ build v' = build version).
Proof.
  intros _. unfold bumpPackageVersion.
  destruct (String.eqb_spec releaseType "major") as [->|Hmajor];
    [|destruct (String.eqb_spec releaseType "minor") as [->|Hminor];
      [|destruct (String.eqb_spec releaseType "patch") as [->|Hpatch]]].
  - split.
    + split; [intros _; apply list_elem_of_here|by eexists].
    + intros v' [= <-]. split; [|done]. left. simpl. lia.
  - split.
    + split; [intros _; apply list_elem_of_further, list_elem_of_here|by eexists].
    + intros v' [= <-]. split; [|done]. right. split; [done|]. left. simpl. lia.
  - split.
    + split; [intros _; do 2 apply list_elem_of_further; apply list_elem_of_here
             |by eexists].
    + intros v' [= <-]. split; [|done]. right. split; [done|]. right.
      split; [done|]. simpl. lia.
  - split; [|done]. split; [by intros [? ?]|].
    intros Hin. repeat (apply elem_of_cons in Hin as [?|Hin]; [done|]).
    by apply elem_of_nil in Hin.
Qed.

(** X21. [evolvePackageVersion] always returns a version, with the same
    major and minor number, a patch number that is not lower and a falsy
    build tag. *)
Theorem evolvePackageVersion_total version :
  safe_version version →
  ∃ v', evolvePackageVersion version = Some v' ∧
        major v' = major version ∧ minor v' = minor version ∧
        patch version ≤ patch v' ∧
        truthy (build v') = false.
Proof.
  intros _. unfold evolvePackageVersion.
  destruct (truthy (build version)) eqn:Hb.
  - eexists. split; [reflexivity|]. simpl. repeat split; try done; lia.
  - eexists. split; [reflexivity|]. simpl. repeat split; try done; lia.
Qed.

(** X22. Releases do not repeat while the numbers stay below 2^53: the
    version [evolvePackageVersion] returns evolves, in turn, to the next
    patch, which comes strictly later in release order. So a version with
    a build tag evolves to the same numbers without the tag and then to
    the next patch, as the script's comment describes. *)
Theorem evolvePackageVersion_advances version v1 :
  safe_version version →
  evolvePackageVersion version = Some v1 →
  safe_version v1 →
  (truthy (build version) = true → patch v1 = patch version ∧ build v1 = None) ∧
  ∃ v2, evolvePackageVersion v1 = Some v2 ∧
        precedes v1 v2 ∧
        (major v2, minor v2, patch v2) = (major v1, minor v1, patch v1 + 1).
Proof.
  intros _ Hv1 _. unfold evolvePackageVersion in Hv1.
  destruct (truthy (build version)) eqn:Htag.
  - injection Hv1 as <-. split; [done|].
    eexists. split; [reflexivity|]. unfold precedes. simpl. split; [|done].
    right. split; [done|]. right. split; [done|]. lia.
  - split; [done|]. unfold bumpPackageVersion in Hv1. simpl in Hv1.
    injection Hv1 as <-. unfold evolvePackageVersion. simpl. rewrite Htag.
    eexists. split; [reflexivity|]. unfold precedes. simpl. split; [|done].
    right. split; [done|]. right. split; [done|]. lia.
Qed.

(** ** Splitting *)

Lemma split_nonempty sep s : ∃ part parts, split sep s = part :: parts.
Proof.
  induction s as [|c s (part & parts & IH)]; simpl; [by eexists _, _|].
  destruct (Ascii.eqb c sep); [by eexists _, _|]. rewrite IH. by eexists _, _.
Qed.

(** Splitting distributes over a separator. *)
Lemma split_app sep a b :
  split sep (a +:+ String sep b) = split sep a ++ split sep b.
Proof.
  induction a as [|c a IH]; simpl.
  - by rewrite Ascii.eqb_refl.
  - destruct (Ascii.eqb c sep); [by rewrite IH|].
    rewrite IH. by destruct (split_nonempty sep a) as (part & parts & ->).
Qed.

Lemma split_none sep a : occurs sep a = false → split sep a = [a].
Proof.
  induction a as [|c a IH]; simpl; [done|].
  destruct (Ascii.eqb c sep); [done|]. simpl. intros Ha. by rewrite IH.
Qed.

Lemma append_assoc a b c : (a +:+ b) +:+ c = a +:+ (b +:+ c).
Proof.
  induction a as [|x a IH]; [done|].
  change (String x ((a +:+ b) +:+ c) = String x (a +:+ (b +:+ c))). by f_equal.
Qed.

Lemma append_cons x a b : String x a +:+ b = String x (a +:+ b).
Proof. reflexivity. Qed.

Lemma append_empty_l a : EmptyString +:+ a = a.
Proof. reflexivity. Qed.

Lemma append_empty_r a : a +:+ EmptyString = a.
Proof.
  induction a as [|x a IH]; [done|].
  change (String x (a +:+ EmptyString) = String x a). by f_equal.
Qed.

Lemma occurs_app c a b : occurs c (a +:+ b) = occurs c a || occurs c b.
Proof. induction a as [|c' a IH]; simpl; [done|]. by rewrite IH, orb_assoc. Qed.

(** ** Digits *)

Lemma isDigit_pretty_N_char d : isDigit (pretty_N_char d) = true.
Proof. unfold pretty_N_char. by repeat case_match. Qed.

Lemma digitValue_pretty_N_char d : (d < 10)%N → digitValue (pretty_N_char d) = d.
Proof.
  intros Hd.
  assert (d = 0 ∨ d = 1 ∨ d = 2 ∨ d = 3 ∨ d = 4 ∨ d = 5 ∨ d = 6 ∨ d = 7 ∨
          d = 8 ∨ d = 9)%N as Hcases by lia.
  repeat destruct Hcases as [->|Hcases]; try reflexivity. by subst.
Qed.

Lemma all_digits_pretty_N_go x s :
  all_digits (pretty_N_go x s) = all_digits s.
Proof.
  revert s. induction (N.lt_wf_0 x) as [x _ IH]; intros s.
  assert (x = 0 ∨ 0 < x)%N as [->|Hx] by lia; [done|].
  rewrite pretty_N_go_step by done. rewrite IH by (by apply N.div_lt).
  simpl. by rewrite isDigit_pretty_N_char.
Qed.

Lemma digitsValue_pretty_N_go x s :
  digitsValue 0 (pretty_N_go x s) = digitsValue x s.
Proof.
  revert s. induction (N.lt_wf_0 x) as [x _ IH]; intros s.
  assert (x = 0 ∨ 0 < x)%N as [->|Hx] by lia; [done|].
  rewrite pretty_N_go_step by done. rewrite IH by (by apply N.div_lt).
  simpl. rewrite digitValue_pretty_N_char by (by apply N.mod_lt).
  f_equal. rewrite (N.div_mod x 10) at 3 by done. lia.
Qed.

Lemma pretty_N_go_nonempty x s : s ≠ EmptyString → pretty_N_go x s ≠ EmptyString.
Proof.
  revert s. induction (N.lt_wf_0 x) as [x _ IH]; intros s Hs.
  assert (x = 0 ∨ 0 < x)%N as [->|Hx] by lia; [done|].
  rewrite pretty_N_go_step by done. apply IH; [by apply N.div_lt|done].
Qed.

(** The decimal form of a number that is not negative: digits only, at
    least one, denoting the number. *)
Lemma pretty_digits (n : Z) :
  0 ≤ n →
  all_digits (pretty n) = true ∧ pretty n ≠ EmptyString ∧
  digitsValue 0 (pretty n) = Z.to_N n.
Proof.
  intros Hn. destruct n as [|p|p]; [done| |lia].
  unfold pretty, pretty_Z, pretty, pretty_positive, pretty, pretty_N.
  rewrite decide_False by done.
  rewrite all_digits_pretty_N_go, digitsValue_pretty_N_go. simpl.
  split; [done|]. split; [|done].
  rewrite pretty_N_go_step by done. by apply pretty_N_go_nonempty.
Qed.

Lemma all_digits_occurs c s :
  isDigit c = false → all_digits s = true → occurs c s = false.
Proof.
  intros Hc. induction s as [|c' s IH]; simpl; [done|].
  intros [Hc' Hs]%andb_prop. rewrite IH by done.
  destruct (Ascii.eqb_spec c' c) as [->|]; [congruence|done].
Qed.

Lemma all_digits_digitPrefix s : all_digits s = true → digitPrefix s = s.
Proof.
  induction s as [|c s IH]; simpl; [done|].
  intros [-> Hs]%andb_prop. by rewrite IH.
Qed.

(** [parseInt] reads back the decimal form of a number that is not
    negative. *)
Lemma parseInt_pretty (n : Z) : 0 ≤ n → parseInt (pretty n) = Some n.
Proof.
  intros Hn. destruct (pretty_digits n Hn) as (Hall & Hne & Hval).
  unfold parseInt. destruct (pretty n) as [|c s] eqn:Hs; [done|].
  simpl in Hall. apply andb_prop in Hall as [Hc Hall].
  assert (isWhiteSpace c = false ∧ Ascii.eqb c "-" = false ∧ Ascii.eqb c "+" = false)
    as (Hws & Hminus & Hplus).
  { unfold isDigit in Hc. unfold isWhiteSpace.
    destruct (Ascii.eqb_spec c "-") as [->|_]; [done|].
    destruct (Ascii.eqb_spec c "+") as [->|_]; [done|].
    repeat split. apply andb_prop in Hc as [H1%Nat.leb_le H2%Nat.leb_le].
    apply orb_false_iff. split; [apply orb_false_iff; split|].
    - apply andb_false_iff. right. apply Nat.leb_gt. lia.
    - apply Nat.eqb_neq. lia.
    - apply Nat.eqb_neq. lia. }
  cbn [trimStart]. rewrite Hws, Hminus, Hplus. cbn [digitPrefix].
  rewrite Hc, (all_digits_digitPrefix s Hall). rewrite Hval.
  f_equal. lia.
Qed.

(** X23. Writing a version and reading it back gives the same version:
    for numbers that are not negative and a build tag that is [null] or a
    non-empty string without a dash. *)
Theorem readPackageVersion_formatVersion version :
  safe_version version →
  plain_build (build version) →
  readPackageVersion (formatVersion version) = Some version.
Proof.
  intros ([HM _] & [Hm _] & [Hp _]) Hbuild.
  destruct version as [M m p b]. simpl in *.
  destruct (pretty_digits M HM) as (HaM & _ & _).
  destruct (pretty_digits m Hm) as (Ham & _ & _).
  destruct (pretty_digits p Hp) as (Hap & _ & _).
  set (numbers := pretty M +:+ String "." (pretty m +:+ String "." (pretty p))).
  assert (occurs "-" numbers = false) as Hdash.
  { unfold numbers. rewrite occurs_app. cbn [occurs]. rewrite occurs_app.
    cbn [occurs]. rewrite !(all_digits_occurs "-") by done. reflexivity. }
  assert (split "." numbers = [pretty M; pretty m; pretty p]) as Hdots.
  { unfold numbers. rewrite !split_app.
    by rewrite !split_none by (by apply all_digits_occurs). }
  assert (mapM parseInt [pretty M; pretty m; pretty p] = Some [M; m; p]) as Hnums.
  { cbn [mapM]. rewrite !parseInt_pretty by done. done. }
  unfold readPackageVersion, formatVersion. cbn [major minor patch build].
  destruct b as [[|c rest]|]; cbn [truthy default].
  - by destruct Hbuild.
  - destruct Hbuild as [_ Hb].
    replace (pretty M +:+ "." +:+ pretty m +:+ "." +:+ pretty p +:+ "-" +:+ String c rest)
      with (numbers +:+ String "-" (String c rest)).
    + rewrite split_app, (split_none _ numbers Hdash), (split_none _ _ Hb).
      cbn [app head default lookup list_lookup]. unfold Datatypes.id.
      rewrite Hdots, Hnums. done.
    + unfold numbers.
      repeat first [rewrite append_assoc | rewrite append_cons
                   | rewrite append_empty_l].
      reflexivity.
  - replace (pretty M +:+ "." +:+ pretty m +:+ "." +:+ pretty p +:+ "")
      with numbers.
    + rewrite (split_none _ numbers Hdash).
      cbn [head default lookup list_lookup]. unfold Datatypes.id.
      rewrite Hdots, Hnums. done.
    + unfold numbers.
      repeat first [rewrite append_assoc | rewrite append_cons
                   | rewrite append_empty_l | rewrite append_empty_r].
      reflexivity.
Qed.

Lemma mapM_parseInt_length (pieces : list string) numbers :
  mapM parseInt pieces = Some numbers → length numbers = length pieces.
Proof. intros H. symmetry. by eapply length_mapM. Qed.

(** X24. A version string whose part before the first dash does not
    consist of exactly three dot-separated pieces is rejected. *)
Theorem readPackageVersion_needs_three_numbers version :
  length (split "." (default EmptyString (head (split "-" version)))) ≠ 3%nat →
  readPackageVersion version = None.
Proof.
  intros Hlen. unfold readPackageVersion.
  destruct (mapM parseInt _) as [numbers|] eqn:Hnums; [|done].
  apply mapM_parseInt_length in Hnums. cbn [mbind option_bind].
  destruct numbers as [|a [|b [|c [|d rest]]]]; try done.
Qed.

(** X25. Reading drops what follows a second dash: once the string has a
    dash, appending a dash and any text does not change what is read. *)
Theorem readPackageVersion_ignores_second_dash version extra :
  occurs "-" version = true →
  readPackageVersion (version +:+ String "-" extra) = readPackageVersion version.
Proof.
  intros Hdash. unfold readPackageVersion. rewrite split_app.
  assert (∃ p0 p1 parts, split "-" version = p0 :: p1 :: parts) as (p0 & p1 & parts & ->).
  { clear extra. induction version as [|c s IH]; [done|]. simpl in *.
    destruct (Ascii.eqb c "-").
    - destruct (split_nonempty "-" s) as (part & parts & ->). by eexists _, _, _.
    - destruct (IH Hdash) as (p0 & p1 & parts & ->). by eexists _, _, _. }
  done.
Qed.

End ReleaseScript.

(** * The claims on the sample worlds *)

Lemma engine_distinct : @GraphicsDistinct engine_graphics.
Proof. split; compute_done. Qed.

#[local] Existing Instance engine_graphics.
#[local] Existing Instance engine_scene.
#[local] Existing Instance engine_distinct.

Lemma sample_consumers_live : consumers_live sample_world sample_material.
Proof. unfold consumers_live. compute_done. Qed.

Lemma sample_scene_live : scene_live sample_world sample_material.
Proof. intros scene [= <-]. by eexists. Qed.

Lemma sample_stencils_live : stencils_live sample_world sample_material.
Proof. split; intros s [= <-]; by eexists. Qed.

(** The example of the specification: a new material reads as
    [BLEND_NONE]; set to [BLEND_ADDITIVE] its fields are
    (true, one, one, add) and it reads as [BLEND_ADDITIVE]. *)
Example default_then_additive :
  get_blendType (constructor 0) = BLEND_NONE ∧
  blendState (blendType_switch BLEND_ADDITIVE (constructor 0))
    = (true, BLENDMODE_ONE, BLENDMODE_ONE, BLENDEQUATION_ADD) ∧
  get_blendType (blendType_switch BLEND_ADDITIVE (constructor 0)) = BLEND_ADDITIVE.
Proof. repeat split. Qed.

Lemma blendType_round_trip_witness :
  ∃ w' m', set_blendType 1%positive BLEND_ADDITIVE sample_world = Some w' ∧
           materialHeap w' !! 1%positive = Some m' ∧
           get_blendType m' = BLEND_ADDITIVE.
Proof.
  apply (blendType_round_trip sample_world 1%positive sample_material).
  - reflexivity.
  - exact sample_consumers_live.
  - exact sample_scene_live.
  - compute_done.
Defined.

(** Blending enabled with factors (zero, zero) is in no row of the table. *)
Lemma get_blendType_fallback_witness :
  get_blendType
    (with_blendState true BLENDMODE_ZERO BLENDMODE_ZERO BLENDEQUATION_ADD
       sample_material)
  = BLEND_NORMAL.
Proof. apply get_blendType_fallback. compute_done. Defined.

(** With the sample scene attached, enabling blending flags the scene and
    not the material. *)
Lemma blendType_dirty_routing_witness :
  ∃ w' m', set_blendType 1%positive BLEND_ADDITIVE sample_world = Some w' ∧
           materialHeap w' !! 1%positive = Some m' ∧
           sceneHeap w' !! 1%positive =
             Some {| Scene.layers := {| LayerComposition._dirtyBlend := true |} |} ∧
           _dirtyBlend m' = false.
Proof.
  apply (blendType_dirty_routing sample_world 1%positive sample_material
           BLEND_ADDITIVE true BLENDMODE_ONE BLENDMODE_ONE BLENDEQUATION_ADD).
  - reflexivity.
  - exact sample_consumers_live.
  - exact sample_scene_live.
  - reflexivity.
  - discriminate.
Defined.

(** Outside a scene, enabling blending flags the material itself. *)
Example no_scene_flags_the_material :
  ∃ w' m', set_blendType 1%positive BLEND_ADDITIVE sample_world_no_scene = Some w' ∧
           materialHeap w' !! 1%positive = Some m' ∧
           _dirtyBlend m' = true ∧
           sceneHeap w' = sceneHeap sample_world_no_scene.
Proof.
  eexists _, _. split; [reflexivity|]. split; [reflexivity|]. split; reflexivity.
Qed.

(** 0 is none of the ten preset values of the sample assignment. *)
Lemma blendType_unknown_preset_witness :
  ∃ w' m', set_blendType 1%positive 0 sample_world = Some w' ∧
           materialHeap w' !! 1%positive = Some m' ∧
           blendState m' = blendState sample_material ∧
           _dirtyBlend m' = _dirtyBlend sample_material ∧
           sceneHeap w' = sceneHeap sample_world.
Proof.
  apply (blendType_unknown_preset sample_world 1%positive sample_material 0).
  - reflexivity.
  - exact sample_consumers_live.
  - compute_done.
Defined.

Lemma blendType_updates_every_key_witness :
  ∃ w', set_blendType 1%positive BLEND_NONE sample_world = Some w' ∧
        calls w' = [EvUpdateKey 1%positive; EvUpdateKey 2%positive].
Proof.
  apply (blendType_updates_every_key sample_world 1%positive sample_material
           BLEND_NONE).
  - reflexivity.
  - exact sample_consumers_live.
  - exact sample_scene_live.
Defined.

Lemma sample_no_scene_consumers_live :
  consumers_live sample_world_no_scene
    (linked [1%positive; 2%positive] None None None sample_material).
Proof. unfold consumers_live. compute_done. Qed.

(** Material 1 is destroyed while material 2 is the fallback: both
    consumers are handed to material 2. *)
Lemma destroy_redirects_consumers_witness :
  ∃ w' m', destroy 1%positive sample_world_no_scene = Some w' ∧
    materialHeap w' !! 1%positive = Some m' ∧
    variants m' = ∅ ∧ _shader m' = None ∧
    ∀ l, l ∈ [1%positive; 2%positive] →
      ∃ mi', meshInstanceHeap w' !! l = Some mi' ∧
             (Some 2%positive ≠ Some 1%positive →
                MeshInstance.material mi' = Some 2%positive) ∧
             (Some 2%positive = Some 1%positive →
                MeshInstance.material mi' = None).
Proof.
  apply (destroy_redirects_consumers sample_world_no_scene 1%positive
           (linked [1%positive; 2%positive] None None None sample_material)).
  - reflexivity.
  - exact sample_no_scene_consumers_live.
Defined.

(** C3 as stated fails when the destroyed material is the fallback: in
    [sample_world] material 1 is [Material.defaultMaterial], the material
    reference of consumer 1 is material 1 before [destroy()] and null
    after it. *)
Lemma destroy_of_fallback_changes_refs :
  ¬ destroy_of_fallback_keeps_refs sample_world 1%positive.
Proof.
  intros Hkeeps.
  pose proof (Hkeeps sample_material _ eq_refl eq_refl
                (destroy_run sample_world 1%positive sample_material eq_refl
                   sample_consumers_live)
                1%positive (list_elem_of_here _ _)) as Hrefs.
  vm_compute in Hrefs. discriminate Hrefs.
Qed.

(** "uFoo" on the sample material, which has no parameter yet. *)
Lemma setParameter_upserts_witness :
  let m2 := setParameter (UArray [UObject "uFoo" (DNumber 2)]) DUndefined
              (setParameter (UName "uFoo") (DNumber 1) sample_material) in
  (∃ p, getParameter "uFoo" m2 = Some p ∧ data p = DNumber 2) ∧
  length (filter (λ kv, kv.1 = "uFoo") (map_to_list (parameters m2))) = 1%nat ∧
  dom (parameters m2) = {["uFoo"]} ∪ dom (parameters sample_material) ∧
  (∀ k, k ≠ "uFoo" → getParameter k m2 = getParameter k sample_material) ∧
  (∀ u us m0,
     setParameter (UArray (u :: us)) DUndefined m0
     = foldl (λ acc x, setParameter x DUndefined acc) m0 (u :: us)).
Proof.
  apply (setParameter_upserts sample_material "uFoo" (DNumber 1) (DNumber 2)).
  reflexivity.
Defined.

Lemma clone_copies_render_state_witness :
  ∃ c w' m', clone 1%positive sample_world = Some (c, w') ∧
    materialHeap sample_world !! c = None ∧
    materialHeap w' !! c = Some m' ∧
    materialHeap w' !! 1%positive = Some sample_material ∧
    renderState m' = renderState sample_material ∧
    stencil_contents w' (stencilFront m')
      = stencil_contents sample_world (stencilFront sample_material) ∧
    stencil_contents w' (stencilBack m')
      = stencil_contents sample_world (stencilBack sample_material) ∧
    _shader m' = _shader sample_material ∧
    parameters m' = ∅ ∧
    meshInstances m' = [] ∧
    (stencilFront sample_material = stencilBack sample_material →
       stencilFront m' = stencilBack m') ∧
    (∀ s, stencilFront m' = Some s ∨ stencilBack m' = Some s →
          stencilHeap sample_world !! s = None).
Proof.
  apply (clone_copies_render_state sample_world 1%positive sample_material).
  - reflexivity.
  - exact sample_stencils_live.
Defined.

Lemma dirty_never_cleared_witness :
  dirty (constructor 7) = true ∧
  dirty_kept sample_world
    (with_shaderHeap
       (<[5%positive := {| Shader.failed := false |}]> (shaderHeap sample_world))
       (store 1%positive (with_dirty true sample_material) sample_world)).
Proof.
  apply (dirty_never_cleared (OpUpdate 1%positive) sample_world _ 7).
  reflexivity.
Defined.

Lemma destroy_keeps_consumers_witness :
  ∃ w' m', destroy 1%positive sample_world = Some w' ∧
           materialHeap w' !! 1%positive = Some m' ∧
           meshInstances m' = [1%positive; 2%positive] ∧
           variants m' = ∅ ∧ _shader m' = None ∧
           destroy 1%positive w' = Some w'.
Proof.
  apply (destroy_keeps_consumers sample_world 1%positive sample_material).
  - reflexivity.
  - exact sample_consumers_live.
Defined.

(** * The further properties on the sample worlds *)

Lemma engine_presets_distinct : @PresetsDistinct engine_scene.
Proof. split; compute_done. Qed.

#[local] Existing Instance engine_presets_distinct.

Lemma blendType_switch_get_blendType_witness :
  blendType_switch (get_blendType sample_material) sample_material = sample_material.
Proof. apply blendType_switch_get_blendType. compute_done. Defined.

Lemma sample_shader_live : shader_live sample_world sample_material.
Proof. intros s [= <-]. by eexists. Qed.

Lemma sample_ids_unique : ids_unique sample_world.
Proof.
  split; simpl.
  - intros l m [<- <-]%lookup_singleton_Some. reflexivity.
  - intros l1 l2 m1 m2 [<- _]%lookup_singleton_Some [<- _]%lookup_singleton_Some _.
    reflexivity.
Qed.

Lemma set_blendType_frame_witness :
  ∃ w', set_blendType 1%positive BLEND_ADDITIVE sample_world = Some w' ∧
    (∃ m', materialHeap w' = <[1%positive := m']> (materialHeap sample_world) ∧
           with_blendTuple (blendState sample_material)
             (with__dirtyBlend (_dirtyBlend sample_material) m') = sample_material) ∧
    meshInstanceHeap w' = meshInstanceHeap sample_world ∧
    shaderHeap w' = shaderHeap sample_world ∧
    stencilHeap w' = stencilHeap sample_world ∧
    (∀ s, Some s ≠ _scene sample_material →
          sceneHeap w' !! s = sceneHeap sample_world !! s) ∧
    defaultMaterial w' = defaultMaterial sample_world ∧
    idCounter w' = idCounter sample_world.
Proof.
  eexists. split; [reflexivity|].
  apply (set_blendType_frame sample_world 1%positive sample_material BLEND_ADDITIVE).
  - reflexivity.
  - reflexivity.
Defined.

Lemma set_blendType_twice_witness :
  ∃ w1, set_blendType 1%positive BLEND_ADDITIVE sample_world = Some w1 ∧
  ∃ w2, set_blendType 1%positive BLEND_ADDITIVE w1 = Some w2 ∧
        materialHeap w2 = materialHeap w1 ∧
        sceneHeap w2 = sceneHeap w1 ∧
        meshInstanceHeap w2 = meshInstanceHeap w1 ∧
        calls w2 = calls w1 ++ (EvUpdateKey <$> meshInstances sample_material).
Proof.
  eexists. split; [reflexivity|].
  apply (set_blendType_twice sample_world 1%positive sample_material BLEND_ADDITIVE).
  - reflexivity.
  - reflexivity.
Defined.

Lemma update_marks_dirty_witness :
  ∃ w', update 1%positive sample_world = Some w' ∧
        materialHeap w' =
          <[1%positive := with_dirty true sample_material]> (materialHeap sample_world) ∧
        (∀ s, _shader sample_material = Some s →
              shaderHeap w' !! s = Some {| Shader.failed := false |}) ∧
        (∀ s, _shader sample_material ≠ Some s →
              shaderHeap w' !! s = shaderHeap sample_world !! s) ∧
        meshInstanceHeap w' = meshInstanceHeap sample_world ∧
        sceneHeap w' = sceneHeap sample_world ∧
        calls w' = calls sample_world ∧
        update 1%positive w' = Some w'.
Proof.
  apply (update_marks_dirty sample_world 1%positive sample_material).
  - reflexivity.
  - exact sample_shader_live.
Defined.

Lemma clearVariants_nulls_slots_witness :
  ∃ w', clearVariants 1%positive sample_world = Some w' ∧
        materialHeap w' =
          <[1%positive := with_variants ∅ sample_material]> (materialHeap sample_world) ∧
        (∀ l mi, l ∈ meshInstances sample_material →
           meshInstanceHeap sample_world !! l = Some mi →
           meshInstanceHeap w' !! l =
             Some {| MeshInstance._shader :=
                       replicate (length (MeshInstance._shader mi)) None;
                     MeshInstance._material := MeshInstance._material mi |}) ∧
        (∀ l, l ∉ meshInstances sample_material →
           meshInstanceHeap w' !! l = meshInstanceHeap sample_world !! l) ∧
        shaderHeap w' = shaderHeap sample_world ∧
        calls w' = calls sample_world.
Proof.
  apply (clearVariants_nulls_slots sample_world 1%positive sample_material).
  - reflexivity.
  - exact sample_consumers_live.
Defined.


Lemma getParameter_setParameter_witness :
  getParameter "uBound" (setParameter (UName "uBound") (DNumber 7) sample_parameterised)
  = if decide ("uBound" = "uBound")
    then Some {| scopeId := getParameter "uBound" sample_parameterised ≫= scopeId;
                 data := DNumber 7 |}
    else getParameter "uBound" sample_parameterised.
Proof.
  apply (getParameter_setParameter "uBound" (DNumber 7) sample_parameterised "uBound").
  reflexivity.
Defined.

Lemma getParameter_deleteParameter_witness :
  getParameter "uBound" (deleteParameter "uBound" sample_parameterised)
  = if decide ("uBound" = "uBound") then None
    else getParameter "uBound" sample_parameterised.
Proof.
  apply (getParameter_deleteParameter "uBound" sample_parameterised "uBound").
  reflexivity.
Defined.

Lemma setParameter_batch_last_wins_witness :
  getParameter "uFree"
    (setParameter
       (uniformObjects
          (("uFree", DNumber 3) :: [("uNew", DNumber 4); ("uFree", DNumber 5)]))
       DUndefined sample_parameterised)
  = match (list_to_map
             (reverse
                (("uFree", DNumber 3) :: [("uNew", DNumber 4); ("uFree", DNumber 5)]))
           : gmap string Data) !! "uFree" with
    | Some v =>
        Some {| scopeId := getParameter "uFree" sample_parameterised ≫= scopeId;
                data := v |}
    | None => getParameter "uFree" sample_parameterised
    end.
Proof.
  apply (setParameter_batch_last_wins ("uFree", DNumber 3)
           [("uNew", DNumber 4); ("uFree", DNumber 5)] sample_parameterised "uFree").
  repeat constructor.
Defined.

Lemma deleteParameter_setParameter_witness :
  deleteParameter "uFoo" (setParameter (UName "uFoo") (DNumber 1) sample_material)
  = sample_material.
Proof. apply deleteParameter_setParameter. reflexivity. Defined.

Lemma setParameters_binds_witness :
  ∃ w' m',
    setParameters 1%positive sample_device (Some ["uFree"; "uMissing"])
      sample_parameterised_world = Some w' ∧
    materialHeap w' = <[1%positive := m']> (materialHeap sample_parameterised_world) ∧
    m' = with_parameters (parameters m') sample_parameterised ∧
    (∀ k, getParameter k m'
          = if decide (k ∈ visited (Some ["uFree"; "uMissing"]) sample_parameterised)
            then bound sample_device k <$> getParameter k sample_parameterised
            else getParameter k sample_parameterised) ∧
    meshInstanceHeap w' = meshInstanceHeap sample_parameterised_world ∧
    shaderHeap w' = shaderHeap sample_parameterised_world ∧
    sceneHeap w' = sceneHeap sample_parameterised_world.
Proof.
  apply (setParameters_binds sample_device 1%positive (Some ["uFree"; "uMissing"])
           sample_parameterised_world sample_parameterised).
  - reflexivity.
  - repeat constructor.
Defined.

Lemma setParameters_calls_witness :
  ∃ w', setParameters 1%positive sample_device (Some ["uFree"; "uMissing"; "uBound"])
          sample_parameterised_world = Some w' ∧
        calls w' = calls sample_parameterised_world ++
                   (["uFree"; "uMissing"; "uBound"]
                      ≫= submit_calls sample_device (parameters sample_parameterised)).
Proof.
  apply (setParameters_calls sample_device 1%positive
           ["uFree"; "uMissing"; "uBound"]
           sample_parameterised_world sample_parameterised).
  - reflexivity.
  - compute_done.
  - repeat constructor.
Defined.

(** On the sample: [resolve] and [setValue] for the unbound entry, nothing
    for the missing name, [setValue] alone for the bound entry. *)
Example setParameters_sample_calls :
  calls <$> setParameters 1%positive sample_device
              (Some ["uFree"; "uMissing"; "uBound"]) sample_parameterised_world
  = Some [EvResolve "uFree"; EvSetValue 9%positive (DNumber 2);
          EvSetValue 3%positive (DNumber 1)].
Proof. vm_compute. reflexivity. Qed.

Lemma setParameters_resolves_once_witness :
  ∃ w1, setParameters 1%positive sample_device None sample_parameterised_world
          = Some w1 ∧
  ∃ w2, setParameters 1%positive sample_device None w1 = Some w2 ∧
        materialHeap w2 = materialHeap w1 ∧
        ∀ e, e ∈ drop (length (calls w1)) (calls w2) → ∀ k, e ≠ EvResolve k.
Proof.
  assert (materialHeap sample_parameterised_world !! 1%positive
          = Some sample_parameterised) as Hm by reflexivity.
  eexists. split; [exact (setParameters_run sample_device 1%positive None _ _ Hm)|].
  apply (setParameters_resolves_once sample_device 1%positive
           sample_parameterised_world sample_parameterised _ Hm).
  exact (setParameters_run sample_device 1%positive None _ _ Hm).
Defined.


Lemma sample_safe_counter : safe_counter sample_world.
Proof. unfold safe_counter. simpl. lia. Qed.

Lemma ids_stay_unique_witness :
  ∃ w', call (OpClone 1%positive) sample_world = Some w' ∧
        ids_unique w' ∧
        ∀ l m, materialHeap sample_world !! l = Some m →
               ∃ m', materialHeap w' !! l = Some m' ∧ id m' = id m.
Proof.
  eexists. split; [reflexivity|].
  apply (ids_stay_unique (OpClone 1%positive) sample_world).
  - exact sample_ids_unique.
  - exact sample_safe_counter.
  - reflexivity.
Defined.

Lemma new_Material_fresh_witness :
  let '(this, w') := new_Material sample_world in
  materialHeap sample_world !! this = None ∧
  idCounter w' = idCounter sample_world + 1 ∧
  (∀ l, l ≠ this → materialHeap w' !! l = materialHeap sample_world !! l) ∧
  ∃ m, materialHeap w' !! this = Some m ∧
       id m = idCounter sample_world ∧
       get_blendType m = BLEND_NONE ∧
       dirty m = true ∧
       meshInstances m = [] ∧ _shader m = None ∧
       parameters m = ∅ ∧ variants m = ∅.
Proof.
  apply (new_Material_fresh sample_world). exact sample_safe_counter.
Defined.

Lemma clone_starts_detached_witness :
  ∃ c w' m', clone 1%positive sample_world = Some (c, w') ∧
    materialHeap w' !! c = Some m' ∧
    name m' = name sample_material ∧
    id m' = idCounter sample_world ∧
    idCounter w' = idCounter sample_world + 1 ∧
    variants m' = ∅ ∧
    _scene m' = None ∧
    _dirtyBlend m' = false ∧
    dirty m' = true ∧
    (stencilFront sample_material ≠ stencilBack sample_material →
       stencilFront m' ≠ stencilBack m') ∧
    (∀ s, is_Some (stencilHeap sample_world !! s) →
          stencilHeap w' !! s = stencilHeap sample_world !! s) ∧
    meshInstanceHeap w' = meshInstanceHeap sample_world ∧
    shaderHeap w' = shaderHeap sample_world ∧
    sceneHeap w' = sceneHeap sample_world.
Proof.
  apply (clone_starts_detached sample_world 1%positive sample_material).
  - reflexivity.
  - exact sample_stencils_live.
  - exact sample_safe_counter.
Defined.

Lemma sample_version_safe : Release.safe_version sample_version.
Proof. repeat split; simpl; lia. Qed.

Lemma bumpPackageVersion_advances_witness :
  (is_Some (Release.bumpPackageVersion sample_version "minor")
     ↔ "minor" ∈ ["major"; "minor"; "patch"]) ∧
  (∀ v', Release.bumpPackageVersion sample_version "minor" = Some v' →
         Release.precedes sample_version v' ∧
         Release.build v' = Release.build sample_version).
Proof. apply bumpPackageVersion_advances. exact sample_version_safe. Defined.

Lemma evolvePackageVersion_total_witness :
  ∃ v', Release.evolvePackageVersion sample_version = Some v' ∧
        Release.major v' = Release.major sample_version ∧
        Release.minor v' = Release.minor sample_version ∧
        Release.patch sample_version ≤ Release.patch v' ∧
        Release.truthy (Release.build v') = false.
Proof. apply evolvePackageVersion_total. exact sample_version_safe. Defined.

Lemma evolvePackageVersion_advances_witness :
  (Release.truthy (Release.build sample_version) = true →
     Release.patch
       {| Release.major := 1; Release.minor := 48; Release.patch := 0;
          Release.build := None |} = Release.patch sample_version ∧
     Release.build
       {| Release.major := 1; Release.minor := 48; Release.patch := 0;
          Release.build := None |} = None) ∧
  ∃ v2, Release.evolvePackageVersion
          {| Release.major := 1; Release.minor := 48; Release.patch := 0;
             Release.build := None |} = Some v2 ∧
        Release.precedes
          {| Release.major := 1; Release.minor := 48; Release.patch := 0;
             Release.build := None |} v2 ∧
        (Release.major v2, Release.minor v2, Release.patch v2) = (1, 48, 0 + 1).
Proof.
  apply (evolvePackageVersion_advances sample_version).
  - exact sample_version_safe.
  - reflexivity.
  - repeat split; simpl; lia.
Defined.

Lemma readPackageVersion_formatVersion_witness :
  Release.readPackageVersion (Release.formatVersion sample_version)
  = Some sample_version.
Proof.
  apply readPackageVersion_formatVersion.
  - exact sample_version_safe.
  - split; [discriminate|reflexivity].
Defined.

Lemma readPackageVersion_needs_three_numbers_witness :
  Release.readPackageVersion "1.48-preview" = None.
Proof. apply readPackageVersion_needs_three_numbers. compute. lia. Defined.

Lemma readPackageVersion_ignores_second_dash_witness :
  Release.readPackageVersion ("1.48.0-preview" +:+ String "-" "rc1")
  = Release.readPackageVersion "1.48.0-preview".
Proof. apply readPackageVersion_ignores_second_dash. reflexivity. Defined.
